(** * HBV sponsor outreach agent: a shallow embedding of [app.py]

    The development follows the layout of the script: the keyword
    scoring function, the relational store with its two tables, the
    throttled mail tool, the pending-send query and the approval-gated
    send loop.  Python values are modelled as follows.

    - [str] is [string]: the UTF-8 bytes of the text.  All keywords are
      ASCII, so searching the bytes finds a keyword exactly where
      searching the code points does.  [str.lower] is modelled on the
      ASCII letters; a code point outside ASCII lowers to code points
      outside ASCII, with two exceptions that cannot complete a keyword:
      [U+0130] lowers to [i] followed by a combining mark and no keyword
      ends in [i], and [U+212A] lowers to [k], a letter no keyword has.
    - [int] is [Z]; SQL [NULL] is [None].
    - [time.time()] is a rational number of seconds. *)

From Stdlib Require Import ZArith QArith Lqa Lia Ascii String List Bool.
From stdpp Require Import base option list sorting strings gmap.

Local Open Scope Z_scope.

(** ** Strings *)

Module Str.

(** [c.lower()] for one character: [A]..[Z] move down by 32. *)
Definition lower_ascii (c : ascii) : ascii :=
  let n := nat_of_ascii c in
  if (Nat.leb 65 n && Nat.leb n 90)%bool then ascii_of_nat (n + 32) else c.

(** [s.lower()]. *)
Fixpoint lower (s : string) : string :=
  match s with
  | EmptyString => EmptyString
  | String c s' => String (lower_ascii c) (lower s')
  end.

(** [hay.startswith(needle)]. *)
Fixpoint startswith (needle hay : string) : bool :=
  match needle, hay with
  | EmptyString, _ => true
  | String _ _, EmptyString => false
  | String a n', String b h' => Ascii.eqb a b && startswith n' h'
  end.

(** [needle in hay]: the needle starts at some position of [hay]. *)
Fixpoint contains (needle hay : string) : bool :=
  startswith needle hay
  || match hay with
     | EmptyString => false
     | String _ h' => contains needle h'
     end.

(** The needle matches at the head of [hay] when the case of letters is
    ignored on both sides. *)
Fixpoint startswith_ci (needle hay : string) : bool :=
  match needle, hay with
  | EmptyString, _ => true
  | String _ _, EmptyString => false
  | String a n', String b h' =>
      Ascii.eqb (lower_ascii a) (lower_ascii b) && startswith_ci n' h'
  end.

(** Case-insensitive occurrence as a substring, position by position. *)
Fixpoint contains_ci (needle hay : string) : bool :=
  startswith_ci needle hay
  || match hay with
     | EmptyString => false
     | String _ h' => contains_ci needle h'
     end.

(** At how many positions of [hay] the needle occurs, case ignored. *)
Fixpoint occurrences (needle hay : string) : nat :=
  (if startswith_ci needle hay then 1 else 0)
  + match hay with
    | EmptyString => 0
    | String _ h' => occurrences needle h'
    end.

(** [kw] occurs in [d] ignoring case: some slice of [d] equals [kw] up
    to the case of its letters. *)
Definition occurs_ci (kw d : string) : Prop :=
  exists pre mid post, d = pre +:+ mid +:+ post /\ lower mid = lower kw.

End Str.

(** ** Priority scoring ([calculate_priority]) *)

Definition keywords_high : list string :=
  ["hepatitis b"; "hbv"; "liver"; "transplant"; "nigeria"; "africa"; "grant"; "sponsor"].

Definition keywords_medium : list string :=
  ["medical"; "health"; "christian"; "charity"; "donation"; "ngo"].

(** One [for kw in kws: if kw in desc: score += w] loop. *)
Definition score_loop (w : Z) (desc : string) (kws : list string) (score : Z) : Z :=
  fold_left (fun score kw => if Str.contains kw desc then score + w else score) kws score.

Definition calculate_priority (description : string) : Z :=
  let score := 0 in
  let desc := Str.lower description in
  let score := score_loop 20 desc keywords_high score in
  let score := score_loop 8 desc keywords_medium score in
  Z.min score 100.

(** The counts the specification speaks of: how many keywords of a list
    occur in the description, case being ignored. *)
Definition keyword_count (kws : list string) (description : string) : Z :=
  Z.of_nat (length (List.filter (fun kw => Str.contains_ci kw description) kws)).

Definition high_count : string -> Z := keyword_count keywords_high.
Definition medium_count : string -> Z := keyword_count keywords_medium.

(** The set of keywords present in a description, as a membership test. *)
Definition present (description kw : string) : bool :=
  Str.contains_ci kw description.

(** ** The relational store ([init_db])

    The two tables of [sponsors.db].  A column that may hold [NULL] is an
    [option]; [id INTEGER PRIMARY KEY AUTOINCREMENT] is never [NULL] and
    is handed out from a per-table sequence. *)

Record sponsor := Sponsor {
  s_id : Z;
  s_name : option string;
  s_email : option string;          (* TEXT UNIQUE *)
  s_description : option string;
  s_source : option string;
  s_priority : option Z;            (* INTEGER DEFAULT 0 *)
  s_added_date : option string }.

Record outreach_event := Outreach {
  o_id : Z;
  o_sponsor_id : option Z;          (* REFERENCES sponsors(id), not enforced *)
  o_sent_date : option string;
  o_status : option string;
  o_message : option string }.

Record store := Store {
  sponsors : list sponsor;
  outreach : list outreach_event;
  sponsors_seq : Z;                 (* largest sponsor id handed out so far *)
  outreach_seq : Z }.

Definition empty_store : store := Store [] [] 0 0.

(** [CREATE TABLE IF NOT EXISTS]: an existing file is left as it is. *)
Definition init_db (file : option store) : store :=
  match file with
  | Some st => st
  | None => empty_store
  end.

(** The values of an [INSERT INTO sponsors (...)], [id] left to the
    store; an omitted [priority] column takes the declared default. *)
Record sponsor_values := SponsorValues {
  v_name : option string;
  v_email : option string;
  v_description : option string;
  v_source : option string;
  v_priority : option (option Z);
  v_added_date : option string }.

Inductive db_outcome :=
| Inserted (rowid : Z)
| IntegrityError (message : string).

(** The [UNIQUE] index on [email]: a [NULL] never collides, a text value
    collides with an equal one (byte for byte, the column has the
    default collation). *)
Definition email_taken (e : string) (st : store) : bool :=
  existsb (fun s => bool_decide (s_email s = Some e)) (sponsors st).

(** Modelled from the spec: the script declares the sponsors table but
    holds no statement that inserts into it (rows are saved by the
    agents); this is the insertion the specification speaks of, as the
    store carries it out under the declared schema: a second row with an
    email that is already there is refused with an integrity error and
    nothing changes, and otherwise the row is appended under the next id
    of the sequence. *)
Definition insert_sponsor (v : sponsor_values) (st : store) : db_outcome * store :=
  let collides := match v_email v with
                  | Some e => email_taken e st
                  | None => false
                  end in
  if collides
  then (IntegrityError "UNIQUE constraint failed: sponsors.email", st)
  else
    let rowid := sponsors_seq st + 1 in
    let row := Sponsor rowid (v_name v) (v_email v) (v_description v) (v_source v)
                 (default (Some 0) (v_priority v)) (v_added_date v) in
    (Inserted rowid,
     Store (sponsors st ++ [row]) (outreach st) rowid (outreach_seq st)).

(** [INSERT INTO outreach (sponsor_id, sent_date, status, message)
    VALUES (?, ?, ?, ?)]. *)
Definition insert_outreach (sponsor_id : option Z) (sent_date status message : option string)
    (st : store) : store :=
  let rowid := outreach_seq st + 1 in
  Store (sponsors st)
        (outreach st ++ [Outreach rowid sponsor_id sent_date status message])
        (sponsors_seq st) rowid.

(** How often a text value occurs in the [email] column. *)
Definition email_count (e : string) (st : store) : nat :=
  length (List.filter (fun s => bool_decide (s_email s = Some e)) (sponsors st)).

(** What the schema guarantees of every state of the file: the email
    index has no duplicate, and no id exceeds its sequence. *)
Record store_ok (st : store) : Prop := StoreOk {
  ok_emails : forall e, (email_count e st <= 1)%nat;
  ok_sponsor_ids : Forall (fun s => s_id s <= sponsors_seq st) (sponsors st);
  ok_outreach_ids : Forall (fun o => o_id o <= outreach_seq st) (outreach st) }.

(** ** SQL expressions of the pending-send query *)

Module Sql.

(** [value LIKE pattern] on text: [%] stands for any run of characters,
    [_] for one character, and letters match up to ASCII case. *)
Fixpoint like (pattern : string) : string -> bool :=
  match pattern with
  | EmptyString =>
      fun s => match s with EmptyString => true | String _ _ => false end
  | String c p =>
      if Ascii.eqb c "%" then
        fix any (s : string) : bool :=
          like p s || match s with
                      | EmptyString => false
                      | String _ s' => any s'
                      end
      else if Ascii.eqb c "_" then
        fun s => match s with
                 | EmptyString => false
                 | String _ s' => like p s'
                 end
      else
        fun s => match s with
                 | EmptyString => false
                 | String d s' =>
                     Ascii.eqb (Str.lower_ascii c) (Str.lower_ascii d) && like p s'
                 end
  end.

(** [a = b] as a join condition: true only for two equal non-null values. *)
Definition eq_true (a b : option Z) : bool :=
  match a, b with
  | Some x, Some y => Z.eqb x y
  | _, _ => false
  end.

(** The order of [ORDER BY]: [NULL] sorts below every integer. *)
Definition le (a b : option Z) : bool :=
  match a, b with
  | None, _ => true
  | Some _, None => false
  | Some x, Some y => Z.leb x y
  end.

End Sql.

(** A row of the result: [SELECT s.id, s.name, s.email, s.priority]. *)
Record pending_row := PendingRow {
  p_id : Z;
  p_name : option string;
  p_email : option string;
  p_priority : option Z }.

Definition select_columns (s : sponsor) : pending_row :=
  PendingRow (s_id s) (s_name s) (s_email s) (s_priority s).

(** [FROM sponsors s LEFT JOIN outreach o ON s.id = o.sponsor_id]: every
    sponsor paired with each of its events, or with [NULL]s when it has
    none. *)
Definition join_rows (st : store) (s : sponsor) : list (sponsor * option outreach_event) :=
  match List.filter (fun o => Sql.eq_true (Some (s_id s)) (o_sponsor_id o)) (outreach st) with
  | [] => [(s, None)]
  | os => map (fun o => (s, Some o)) os
  end.

Definition left_join (st : store) : list (sponsor * option outreach_event) :=
  flat_map (join_rows st) (sponsors st).

(** [WHERE o.id IS NULL AND s.email IS NOT NULL AND s.email LIKE '%@%']. *)
Definition where_clause (r : sponsor * option outreach_event) : bool :=
  let (s, o) := r in
  match o_id <$> o with None => true | Some _ => false end
  && match s_email s with None => false | Some _ => true end
  && match s_email s with None => false | Some e => Sql.like "%@%" e end.

(** [ORDER BY s.priority DESC]: [r1] may come before [r2]. *)
Definition priority_desc (r1 r2 : pending_row) : Prop :=
  Sql.le (p_priority r2) (p_priority r1) = true.

#[global] Instance priority_desc_dec : RelDecision priority_desc :=
  fun r1 r2 => decide (Sql.le (p_priority r2) (p_priority r1) = true).

Definition pending (st : store) : list pending_row :=
  merge_sort priority_desc
    (map (fun r => select_columns (fst r)) (List.filter where_clause (left_join st))).

(** The words of the specification: no outreach event refers to the
    sponsor, and its email is there and has an [@] in it. *)
Definition unsent (st : store) (s : sponsor) : Prop :=
  Forall (fun o => o_sponsor_id o <> Some (s_id s)) (outreach st).

Definition plausible_email (s : sponsor) : Prop :=
  exists e, s_email s = Some e /\ exists pre post, e = pre +:+ "@" +:+ post.

(** The same two conditions as a test on a sponsor row. *)
Definition qualifies (st : store) (s : sponsor) : bool :=
  forallb (fun o => negb (bool_decide (o_sponsor_id o = Some (s_id s)))) (outreach st)
  && match s_email s with
     | Some e => Str.contains "@" e
     | None => false
     end.

(** ** The world the script acts on

    The clock, the closure cell of the throttle, the log file, the
    messages handed to the mail server and the store.  What the mail
    libraries, [time.sleep] and [datetime] do is given by an
    environment; the failures of the mail libraries are the
    exceptions they raise, all of class [Exception]. *)

Record exn := Exn {
  exn_class : string;
  exn_str : string }.                 (* str(e) *)

Inductive smtp_step := BuildMessage | Connect | StartTLS | Login | SendMail | Quit.

Record send_args := SendArgs {
  to_email : string;
  subject : string;
  body_html : string;
  from_email : string;
  smtp_server : string;
  smtp_port : Z;
  username : string;
  password : string }.

Record Env := {
  smtp_fault : nat -> smtp_step -> option exn;  (* what a step of the n-th session raises *)
  smtp_seconds : nat -> Q;                      (* how long the n-th session takes *)
  oversleep : nat -> Q;                         (* by how much the n-th sleep runs over *)
  strftime : Q -> string }.                     (* "%Y-%m-%d %H:%M" of a clock reading *)

(** Time does not run backwards: a session takes no negative time and
    [time.sleep] suspends for at least the time asked. *)
Record env_ok (E : Env) : Prop := EnvOk {
  smtp_seconds_nonneg : forall n, (0 <= smtp_seconds E n)%Q;
  oversleep_nonneg : forall n, (0 <= oversleep E n)%Q }.

Record world := World {
  clock : Q;                          (* time.time() *)
  last_called : Q;                    (* the nonlocal cell of rate_limit *)
  naps : list Q;                      (* arguments of time.sleep, in order *)
  attempts : list (Q * send_args);    (* when each body of send_email began *)
  outbox : list send_args;            (* messages accepted by sendmail *)
  log : list string;                  (* lines of hbv_outreach.log *)
  db : store }.

Definition set_clock (t : Q) (w : world) : world :=
  World t (last_called w) (naps w) (attempts w) (outbox w) (log w) (db w).
Definition set_last_called (t : Q) (w : world) : world :=
  World (clock w) t (naps w) (attempts w) (outbox w) (log w) (db w).
Definition set_db (st : store) (w : world) : world :=
  World (clock w) (last_called w) (naps w) (attempts w) (outbox w) (log w) st.

(** Time passing. *)
Definition tick (d : Q) (w : world) : world := set_clock (clock w + d)%Q w.

(** [time.sleep(d)]. *)
Definition sleep (E : Env) (d : Q) (w : world) : world :=
  World (clock w + (d + oversleep E (length (naps w))))%Q (last_called w)
        (naps w ++ [d]) (attempts w) (outbox w) (log w) (db w).

(** [log_action(action, details)]: one line, [f"{action} | {details}"]. *)
Definition log_action (action details : string) (w : world) : world :=
  World (clock w) (last_called w) (naps w) (attempts w) (outbox w)
        (log w ++ [action +:+ " | " +:+ details]) (db w).

Definition begin_attempt (a : send_args) (w : world) : world :=
  World (clock w) (last_called w) (naps w) (attempts w ++ [(clock w, a)])
        (outbox w) (log w) (db w).

Definition deliver (a : send_args) (w : world) : world :=
  World (clock w) (last_called w) (naps w) (attempts w) (outbox w ++ [a]) (log w) (db w).

(** The state of a fresh run of the script: the throttle cell starts at
    0 and [init_db] has run and logged. *)
Definition initial_world (now : Q) (file : option store) : world :=
  log_action "Database initialized" "" (World now 0 [] [] [] [] (init_db file)).

(** ** Statements that may raise *)

Module Exc.

Definition M (A : Type) : Type := world -> (exn + A) * world.

Definition ret {A} (a : A) : M A := fun w => (inr a, w).

Definition raise {A} (e : exn) : M A := fun w => (inl e, w).

Definition bind {A B} (m : M A) (k : A -> M B) : M B :=
  fun w => match m w with
           | (inl e, w') => (inl e, w')
           | (inr a, w') => k a w'
           end.

(** A statement that cannot raise. *)
Definition lift (f : world -> world) : M unit := fun w => (inr tt, f w).

(** [try: body  except Exception as e: handler]. *)
Definition try_except {A} (body : M A) (handler : exn -> world -> A * world)
    : world -> A * world :=
  fun w => match body w with
           | (inr a, w') => (a, w')
           | (inl e, w') => handler e w'
           end.

End Exc.

#[global] Instance exc_ret : MRet Exc.M := @Exc.ret.
#[global] Instance exc_bind : MBind Exc.M := fun A B k m => Exc.bind m k.

(** ** The mail tool ([rate_limit], [send_email]) *)

(** One call into the mail libraries during session [n]. *)
Definition smtp (E : Env) (n : nat) (step : smtp_step) : Exc.M unit :=
  match smtp_fault E n step with
  | Some e => Exc.raise e
  | None => Exc.ret tt
  end.

Definition sent_status (to : string) : string := "✅ Sent to " +:+ to.

Definition failed_status (to : string) (e : exn) : string :=
  "Failed to " +:+ to +:+ ": " +:+ exn_str e.

(** The body of [send_email], before decoration.  The [try] block is the
    sequence of library calls, any of which may raise; [sendmail] hands
    the message over when it does not.  Entering the body is noted in
    [attempts], and the clock moves on by the time the session took. *)
Definition send_email_body (E : Env) (a : send_args) (w : world) : string * world :=
  let n := length (attempts w) in
  let w := begin_attempt a w in
  let (result, w) :=
    Exc.try_except
      (smtp E n BuildMessage ;;
       smtp E n Connect ;;
       smtp E n StartTLS ;;
       smtp E n Login ;;
       smtp E n SendMail ;;
       Exc.lift (deliver a) ;;
       smtp E n Quit ;;
       Exc.lift (log_action "EMAIL SENT" ("To: " +:+ to_email a)) ;;
       mret (sent_status (to_email a)) : Exc.M string)
      (fun e w =>
         let error_msg := failed_status (to_email a) e in
         (error_msg, log_action "EMAIL FAILED" error_msg w))
      w in
  (result, tick (smtp_seconds E n) w).

(** The decorator: the wrapper it returns, with the nonlocal
    [last_called] kept in the world. *)
Definition rate_limit {A B} (E : Env) (seconds_between_emails : Q)
    (func : A -> world -> B * world) (args : A) (w : world) : B * world :=
  let elapsed := (clock w - last_called w)%Q in
  let w := if Qlt_le_dec elapsed seconds_between_emails
           then sleep E (seconds_between_emails - elapsed)%Q w
           else w in
  let (result, w) := func args w in
  (result, set_last_called (clock w) w).

Definition send_email (E : Env) : send_args -> world -> string * world :=
  rate_limit E 5 (send_email_body E).

(** ** The send tab *)

Definition dq : string := String (ascii_of_nat 34) EmptyString.

Definition HTML_TEMPLATE_head : string :=
  "<html>
  <body style=" +:+ dq +:+ "font-family: Arial, sans-serif; line-height: 1.7; color: #333;" +:+ dq +:+ ">
    <h2 style=" +:+ dq +:+ "color: #2c3e50;" +:+ dq +:+ ">Request for Support – Chronic Hepatitis B Treatment</h2>
    <p>Dear ".

Definition HTML_TEMPLATE_tail : string :=
  ",</p>
    <p>I am <strong>Genesis Koodanga</strong>, a 25-year-old Christian secondary school teacher from Zing LGA, Taraba State, Nigeria. 
    I hold a degree in Linguistics from Taraba State University Jalingo and completed my NYSC in 2024.</p>
    
    <p>I have been diagnosed with <strong>chronic Hepatitis B</strong> and I am reaching out with hope and faith for any possible support with:</p>
    <ul>
      <li>Medical tests and monitoring</li>
      <li>Antiviral treatment/medication</li>
      <li>Travel expenses for specialist care</li>
      <li>Liver transplant evaluation (if required in future)</li>
    </ul>
    
    <p>I remain committed to my teaching work and writing while believing God for complete healing. 
    Any assistance or guidance your organization can offer would be a tremendous blessing.</p>
    
    <p>Thank you sincerely for your time and kind consideration.</p>
    
    <p>With gratitude and hope,<br>
    <strong>Genesis Koodanga</strong><br>
    Secondary School Teacher & Writer<br>
    Taraba State, Nigeria<br>
    Phone: [Your Phone] | Email: [Your Email]</p>
  </body>
</html>
".

(** [HTML_TEMPLATE.format(recipient_name_or_team=name)]: the template has
    this one field and no other brace. *)
Definition HTML_TEMPLATE_format (name : string) : string :=
  HTML_TEMPLATE_head +:+ name +:+ HTML_TEMPLATE_tail.

(** How Python renders a text cell that may be [None]. *)
Definition pystr (cell : option string) : string := default "None" cell.

(** [row["name"] or "Team"]. *)
Definition name_or_team (row : pending_row) : string :=
  match p_name row with
  | Some (String c n) => String c n
  | _ => "Team"
  end.

Definition mail_for (from_email password : string) (row : pending_row) : send_args :=
  {| to_email := pystr (p_email row);
     subject := "Request for Support – Chronic Hepatitis B (Nigeria)";
     body_html := HTML_TEMPLATE_format (name_or_team row);
     from_email := from_email;
     smtp_server := "smtp.gmail.com";
     smtp_port := 587;
     username := from_email;
     password := password |}.

Definition result_line (row : pending_row) (status : string) : string :=
  pystr (p_email row) +:+ " → " +:+ status.

(** One turn of [for _, row in pending.iterrows()]. *)
Definition send_row (E : Env) (from_email password : string)
    (acc : list string * world) (row : pending_row) : list string * world :=
  let (results, w) := acc in
  let (status, w) := send_email E (mail_for from_email password row) w in
  let w := set_db (insert_outreach (Some (p_id row)) (Some (strftime E (clock w)))
                     (Some status) (Some "HTML template") (db w)) w in
  (results ++ [result_line row status], w).

Definition send_loop (E : Env) (from_email password : string)
    (rows : list pending_row) (w : world) : list string * world :=
  fold_left (send_row E from_email password) rows ([], w).

Inductive ui :=
| Dataframe (rows : list pending_row)
| Error (message : string)
| Success (message : string)
| Write (message : string).

(** The handler of the send button. *)
Definition on_send_click (E : Env) (session_state : gmap string string)
    (rows : list pending_row) (w : world) : list ui * world :=
  let from_email := default "" (session_state !! "from_email") in
  let password := default "" (session_state !! "password") in
  if bool_decide (from_email = "") || bool_decide (password = "")
  then ([Error "Set email credentials in sidebar first"], w)
  else
    let (results, w) := send_loop E from_email password rows w in
    (Success "All emails processed!" :: map Write results, w).

(** The send tab: the query, then the table and the gated button; a
    disabled button is never reported as clicked. *)
Definition tab3 (E : Env) (session_state : gmap string string)
    (send_all clicked : bool) (w : world) : list ui * world :=
  let rows := pending (db w) in
  match rows with
  | [] => ([Success "No new contacts to email (or all already sent)"], w)
  | _ =>
      if send_all && clicked
      then let (out, w) := on_send_click E session_state rows w in
           (Dataframe rows :: out, w)
      else ([Dataframe rows], w)
  end.

(** The first exception a session meets, going through its steps in the
    order of the [try] block. *)
Definition smtp_steps : list smtp_step :=
  [BuildMessage; Connect; StartTLS; Login; SendMail; Quit].

Definition first_fault (E : Env) (n : nat) : option exn :=
  head (omap (smtp_fault E n) smtp_steps).

(** The world in which the wrapper of [rate_limit] calls the wrapped
    function: the one it was called in, after the sleep if there is one. *)
Definition after_wait (E : Env) (seconds_between_emails : Q) (w : world) : world :=
  if Qlt_le_dec (clock w - last_called w) seconds_between_emails
  then sleep E (seconds_between_emails - (clock w - last_called w))%Q w
  else w.

(** What an outreach event records about a send, apart from its own id
    and date. *)
Definition event_core (ev : outreach_event) : option Z * option string * option string :=
  (o_sponsor_id ev, o_status ev, o_message ev).

(** A status string of the mail tool for the recipient of a row. *)
Definition status_of_send (row : pending_row) (status : string) : Prop :=
  status = sent_status (pystr (p_email row))
  \/ exists e, status = failed_status (pystr (p_email row)) e.

(** ** Sample data *)

Module Sample.

(** The second session is refused at login; a session takes half a
    second and a sleep runs over by a hundredth. *)
Definition env : Env := {|
  smtp_fault := fun n step =>
    match n, step with
    | 1%nat, Login => Some (Exn "SMTPAuthenticationError" "(535, b'5.7.8 Bad credentials')")
    | _, _ => None
    end;
  smtp_seconds := fun _ => (1 # 2)%Q;
  oversleep := fun _ => (1 # 100)%Q;
  strftime := fun _ => "2026-01-15 09:30" |}.

Definition liver_trust : sponsor_values :=
  SponsorValues (Some "Liver Trust") (Some "help@liver.example") None None
    (Some (Some 40)) None.

Definition hbv_fund : sponsor_values :=
  SponsorValues None (Some "grants@hbv.example") None None (Some (Some 60)) None.

Definition file : store :=
  snd (insert_sponsor hbv_fund (snd (insert_sponsor liver_trust empty_store))).

Definition start : world := initial_world 1000 (Some file).

Definition credentials : gmap string string :=
  <["from_email" := "genesis@gmail.example"]> (<["password" := "app-password"]> ∅).

Definition first_mail : send_args :=
  mail_for "genesis@gmail.example" "app-password"
    (PendingRow 2 None (Some "grants@hbv.example") (Some 60)).


End Sample.

(** ** The search tool ([web_search]) *)

Module Search.

Definition nl : string := String (ascii_of_nat 10) EmptyString.

(** [r[key]] on a dict: a missing key raises [KeyError], whose [str] is
    the key between quotes. *)
Definition getitem (r : gmap string string) (key : string) : exn + string :=
  match r !! key with
  | Some v => inr v
  | None => inl (Exn "KeyError" ("'" +:+ key +:+ "'"))
  end.

(** The f-string of one hit; the fields are read from left to right. *)
Definition format_hit (r : gmap string string) : exn + string :=
  match getitem r "title" with
  | inl e => inl e
  | inr title =>
      match getitem r "href" with
      | inl e => inl e
      | inr href =>
          match getitem r "body" with
          | inl e => inl e
          | inr body =>
              inr ("Title: " +:+ title +:+ nl +:+ "Link: " +:+ href +:+ nl
                   +:+ "Snippet: " +:+ body)
          end
      end
  end.

(** The list comprehension: the first hit that raises ends it. *)
Fixpoint format_hits (results : list (gmap string string)) : exn + list string :=
  match results with
  | [] => inr []
  | r :: rs =>
      match format_hit r with
      | inl e => inl e
      | inr block =>
          match format_hits rs with
          | inl e => inl e
          | inr blocks => inr (block :: blocks)
          end
      end
  end.

(** [sep.join(parts)]. *)
Fixpoint join (sep : string) (parts : list string) : string :=
  match parts with
  | [] => ""
  | [part] => part
  | part :: rest => part +:+ sep +:+ join sep rest
  end.

(** [web_search(query, max_results)]; [ddgs_text] is the provider:
    [list(ddgs.text(query, max_results=max_results))] inside the [with]
    block, which returns the hits or raises. *)
Definition web_search (ddgs_text : string -> Z -> exn + list (gmap string string))
    (query : string) (max_results : Z) : string :=
  let body :=
    match ddgs_text query max_results with
    | inl e => inl e
    | inr results =>
        match results with
        | [] => inr "No results found."
        | _ =>
            match format_hits results with
            | inl e => inl e
            | inr blocks => inr (join (nl +:+ nl) blocks)
            end
        end
    end in
  match body with
  | inr formatted => formatted
  | inl e => "Search error: " +:+ exn_str e
  end.

(** The first of the three fields a hit lacks, if any. *)
Definition first_missing (r : gmap string string) : option string :=
  head (List.filter (fun key => bool_decide (r !! key = None)) ["title"; "href"; "body"]).

(** The block of text a complete hit is shown as. *)
Definition block_of (r : gmap string string) (block : string) : Prop :=
  exists title href body,
    r !! "title" = Some title /\ r !! "href" = Some href /\ r !! "body" = Some body
    /\ block = "Title: " +:+ title +:+ nl +:+ "Link: " +:+ href +:+ nl
               +:+ "Snippet: " +:+ body.

Definition sample_hit : gmap string string :=
  <["title" := "Hepatitis B Foundation"]>
    (<["href" := "https://hepb.example"]> (<["body" := "Grants for patients"]> ∅)).

Definition sample_hit_without_link : gmap string string :=
  <["title" := "Liver fund"]> (<["body" := "Support in Nigeria"]> ∅).

End Search.

(** ** Observations on the mail tool *)

(** No step of session [n] up to and including [sendmail] raises. *)
Definition handed_over (E : Env) (n : nat) : bool :=
  forallb (fun step => bool_decide (smtp_fault E n step = None))
    [BuildMessage; Connect; StartTLS; Login; SendMail].


(** Two sends are a full interval apart. *)
Definition gap (t1 t2 : Q) : Prop := (t1 + 5 <= t2)%Q.

(** Every send so far began an interval or more after every earlier one,
    and none began after the time the throttle remembers. *)
Definition throttle_inv (w : world) : Prop :=
  StronglySorted gap (map fst (attempts w))
  /\ Forall (fun t => (t <= last_called w)%Q) (map fst (attempts w)).

(** ** The database tab *)

(** [ORDER BY priority DESC] on whole sponsor rows. *)
Definition sponsor_priority_desc (s1 s2 : sponsor) : Prop :=
  Sql.le (s_priority s2) (s_priority s1) = true.

#[global] Instance sponsor_priority_desc_dec : RelDecision sponsor_priority_desc :=
  fun s1 s2 => decide (Sql.le (s_priority s2) (s_priority s1) = true).

(** [SELECT * FROM sponsors ORDER BY priority DESC]. *)
Definition sponsors_by_priority (st : store) : list sponsor :=
  merge_sort sponsor_priority_desc (sponsors st).

Inductive tab2_view :=
| SponsorTable (df : list sponsor)
| NoSponsors (message : string).

(** The database tab: the table of all sponsors, or a notice when there
    is none.  (The CSV download of the same rows is left out.) *)
Definition tab2 (st : store) : tab2_view :=
  match sponsors_by_priority st with
  | [] => NoSponsors "No sponsors in database yet. Run research first."
  | df => SponsorTable df
  end.

(** ** The log tab and the sidebar *)

(** [logs[-50:][::-1]]: the last fifty lines, the newest first. *)
Definition recent_logs (lines : list string) : list string :=
  rev (drop (length lines - 50) lines).

Inductive tab4_view :=
| LogCode (text : string)
| NoLog (message : string).

(** The log tab; [file] is the lines of [hbv_outreach.log], or [None]
    when reading it raises. *)
Definition tab4 (file : option (list string)) : tab4_view :=
  match file with
  | Some lines => LogCode (Search.join Search.nl (recent_logs lines))
  | None => NoLog "No log yet"
  end.

Inductive sidebar_note := CredentialsReady | UseAppPassword.

(** The sidebar: the two inputs are stored in the session state only
    when both are non-empty. *)
Definition sidebar (from_input password_input : string) (session_state : gmap string string)
    : gmap string string * sidebar_note :=
  if negb (bool_decide (from_input = "")) && negb (bool_decide (password_input = ""))
  then (<["password" := password_input]> (<["from_email" := from_input]> session_state),
        CredentialsReady)
  else (session_state, UseAppPassword).

(** ** One execution of the script

    The script from top to bottom with the research button not clicked:
    the decorator is applied anew, so its cell starts at 0 again;
    [init_db] opens the store that is there and logs; the send tab sees
    the session state as the run found it; the sidebar stores the
    inputs; the last line logs. *)
Record widgets := Widgets {
  send_all_box : bool;
  send_clicked : bool;
  from_input : string;
  password_input : string }.

Definition script_run (E : Env) (wd : widgets) (session_state : gmap string string)
    (w : world) : gmap string string * world :=
  let w := set_last_called 0 w in
  let w := log_action "Database initialized" "" (set_db (init_db (Some (db w))) w) in
  let (_, w) := tab3 E session_state (send_all_box wd) (send_clicked wd) w in
  let (session_state, _) := sidebar (from_input wd) (password_input wd) session_state in
  (session_state, log_action "App loaded successfully" "" w).

(** The sponsor a recipient address was taken from. *)
Definition pending_recipient (st : store) (a : send_args) : Prop :=
  exists s e, In s (sponsors st) /\ s_email s = Some e /\ to_email a = e
              /\ unsent st s /\ Str.contains "@" e = true.

(** * Properties *)

(** ** Strings *)

Section StrFacts.
Import Str.

Lemma lower_ascii_idem c : lower_ascii (lower_ascii c) = lower_ascii c.
Proof. destruct c as [[] [] [] [] [] [] [] []]; reflexivity. Qed.

Lemma lower_idem s : lower (lower s) = lower s.
Proof. induction s as [|c s IH]; simpl; [done|]. by rewrite lower_ascii_idem, IH. Qed.

Lemma string_app_cons x (a b : string) : String x a +:+ b = String x (a +:+ b).
Proof. reflexivity. Qed.

Lemma string_app_assoc (a b c : string) : (a +:+ b) +:+ c = a +:+ b +:+ c.
Proof.
  induction a as [|x a IH]; [done|]. by rewrite !string_app_cons, IH.
Qed.

Lemma lower_app a b : lower (a +:+ b) = lower a +:+ lower b.
Proof. induction a as [|c a IH]; simpl; [done|]. by rewrite IH. Qed.

Lemma lower_app_inv s a b :
  lower s = a +:+ b -> exists a' b', s = a' +:+ b' /\ lower a' = a /\ lower b' = b.
Proof.
  revert s. induction a as [|c a IH]; intros s E; simpl in E.
  - exists EmptyString, s. by simpl.
  - destruct s as [|d s]; simpl in E; [discriminate|].
    injection E as Ec Es. destruct (IH _ Es) as (a' & b' & -> & Ha & Hb).
    exists (String d a'), b'. simpl. by rewrite Ec, Ha.
Qed.

Lemma startswith_true needle hay :
  startswith needle hay = true <-> exists post, hay = needle +:+ post.
Proof.
  revert hay. induction needle as [|a n IH]; intros hay; simpl.
  - split; [intros _; by exists hay | done].
  - destruct hay as [|b h].
    + split; [done | intros [? ?]; discriminate].
    + rewrite andb_true_iff, IH. split.
      * intros [Hab [post ->]]. apply Ascii.eqb_eq in Hab. subst. by exists post.
      * intros [post E]. injection E as -> ->. split; [apply Ascii.eqb_refl | by exists post].
Qed.

Lemma contains_true needle hay :
  contains needle hay = true <-> exists pre post, hay = pre +:+ needle +:+ post.
Proof.
  induction hay as [|b h IH]; simpl; rewrite orb_true_iff.
  - rewrite startswith_true. split.
    + intros [[post E] | ?]; [|done]. by exists EmptyString, post.
    + intros ([|? ?] & post & E); [left; by exists post | discriminate].
  - rewrite startswith_true, IH. split.
    + intros [[post E] | (pre & post & ->)].
      * by exists EmptyString, post.
      * by exists (String b pre), post.
    + intros ([|c pre] & post & E); simpl in E.
      * left. by exists post.
      * right. injection E as -> ->. by exists pre, post.
Qed.

Lemma startswith_lower needle hay :
  startswith (lower needle) (lower hay) = startswith_ci needle hay.
Proof.
  revert hay. induction needle as [|a n IH]; intros [|b h]; simpl; try done.
  by rewrite IH.
Qed.

Lemma contains_lower needle hay :
  contains (lower needle) (lower hay) = contains_ci needle hay.
Proof.
  induction hay as [|b h IH]; simpl.
  - by rewrite <- (startswith_lower needle EmptyString).
  - by rewrite <- (startswith_lower needle (String b h)), IH.
Qed.

(** The position-by-position test decides occurrence up to case. *)
Lemma contains_ci_occurs kw d : contains_ci kw d = true <-> occurs_ci kw d.
Proof.
  rewrite <- contains_lower, contains_true. unfold occurs_ci. split.
  - intros (pre & post & E).
    apply lower_app_inv in E as (pre' & rest & -> & _ & E).
    apply lower_app_inv in E as (mid & post' & -> & Hmid & _).
    by exists pre', mid, post'.
  - intros (pre & mid & post & -> & E).
    exists (lower pre), (lower post). by rewrite !lower_app, E.
Qed.

Lemma contains_app_l needle a b :
  contains needle a = true -> contains needle (a +:+ b) = true.
Proof.
  rewrite !contains_true. intros (pre & post & ->).
  exists pre, (post +:+ b). by rewrite !string_app_assoc.
Qed.

End StrFacts.

(** ** Priority scoring *)

Lemma keywords_lowercase :
  Forall (fun kw => Str.lower kw = kw) (keywords_high ++ keywords_medium).
Proof. repeat constructor. Qed.

Lemma contains_keyword kw d :
  Str.lower kw = kw -> Str.contains kw (Str.lower d) = present d kw.
Proof. intros E. unfold present. by rewrite <- contains_lower, E. Qed.

Lemma score_loop_count w d kws score :
  Forall (fun kw => Str.lower kw = kw) kws ->
  score_loop w (Str.lower d) kws score = score + w * keyword_count kws d.
Proof.
  unfold score_loop, keyword_count. intros Hl. revert score.
  induction Hl as [|kw kws Hkw _ IH]; intros score; simpl; [lia|].
  rewrite IH, (contains_keyword _ _ Hkw). unfold present.
  destruct (Str.contains_ci kw d); simpl length; lia.
Qed.

Lemma keyword_count_nonneg kws d : 0 <= keyword_count kws d.
Proof. unfold keyword_count. lia. Qed.

Lemma calculate_priority_formula d :
  calculate_priority d = Z.min (20 * high_count d + 8 * medium_count d) 100.
Proof.
  pose proof keywords_lowercase as Hl. apply Forall_app in Hl as [Hh Hm].
  unfold calculate_priority, high_count, medium_count.
  rewrite !score_loop_count by assumption. f_equal; lia.
Qed.

(** C1: the score is [min (20 * high_count + 8 * medium_count) 100],
    where the counts are the numbers of high and medium keywords that
    occur in the description as substrings up to case, and it lies
    between 0 and 100. *)
Theorem calculate_priority_spec (description : string) :
  (forall kw, present description kw = true <-> Str.occurs_ci kw description)
  /\ high_count description
     = Z.of_nat (length (List.filter (present description) keywords_high))
  /\ medium_count description
     = Z.of_nat (length (List.filter (present description) keywords_medium))
  /\ calculate_priority description
     = Z.min (20 * high_count description + 8 * medium_count description) 100
  /\ 0 <= calculate_priority description <= 100.
Proof.
  split; [intros kw; apply contains_ci_occurs|].
  split; [reflexivity|]. split; [reflexivity|].
  split; [apply calculate_priority_formula|].
  rewrite calculate_priority_formula.
  pose proof (keyword_count_nonneg keywords_high description).
  pose proof (keyword_count_nonneg keywords_medium description).
  unfold high_count, medium_count. lia.
Qed.

(** C2: the worked example of the specification scores 88, four high
    keywords giving 80 and one medium keyword giving 8. *)
Theorem calculate_priority_example :
  calculate_priority "NGO funding Hepatitis B and liver transplant patients in Nigeria" = 88
  /\ List.filter (present "NGO funding Hepatitis B and liver transplant patients in Nigeria")
       keywords_high = ["hepatitis b"; "liver"; "transplant"; "nigeria"]
  /\ List.filter (present "NGO funding Hepatitis B and liver transplant patients in Nigeria")
       keywords_medium = ["ngo"].
Proof. repeat split; vm_compute; reflexivity. Qed.

Lemma score_loop_mono w d1 d2 kws s1 s2 :
  0 <= w -> s1 <= s2 ->
  (forall kw, Str.contains kw d1 = true -> Str.contains kw d2 = true) ->
  score_loop w d1 kws s1 <= score_loop w d2 kws s2.
Proof.
  intros Hw Hs Himp. unfold score_loop. revert s1 s2 Hs.
  induction kws as [|kw kws IH]; intros s1 s2 Hs; simpl; [done|].
  apply IH. specialize (Himp kw).
  destruct (Str.contains kw d1); [rewrite Himp by done; lia|].
  destruct (Str.contains kw d2); lia.
Qed.

(** C9: appending text never lowers the score. *)
Theorem calculate_priority_app_mono (d1 d2 : string) :
  calculate_priority d1 <= calculate_priority (d1 +:+ d2).
Proof.
  unfold calculate_priority. rewrite lower_app.
  apply Z.min_le_compat_r.
  apply score_loop_mono; [lia| |intros kw; apply contains_app_l].
  apply score_loop_mono; [lia|lia|intros kw; apply contains_app_l].
Qed.

Lemma occurrences_present kw d : (0 < Str.occurrences kw d)%nat <-> present d kw = true.
Proof.
  unfold present. induction d as [|c d IH]; simpl.
  - destruct (Str.startswith_ci kw ""); simpl; split; (lia || done).
  - rewrite orb_true_iff, <- IH.
    destruct (Str.startswith_ci kw (String c d)); simpl.
    + split; [auto | lia].
    + split; [auto | intros [?|?]; [done | lia]].
Qed.

Lemma keyword_count_ext kws d1 d2 :
  Forall (fun kw => present d1 kw = present d2 kw) kws ->
  keyword_count kws d1 = keyword_count kws d2.
Proof.
  unfold keyword_count, present. intros H. do 2 f_equal.
  induction H as [|kw kws E _ IH]; simpl; [done|]. by rewrite E, IH.
Qed.

(** C10: the score depends on which keywords occur, not on how often:
    two descriptions in which the same keywords occur at least once
    score the same, whatever the numbers of occurrences. *)
Theorem calculate_priority_presence_only (d1 d2 : string) :
  Forall (fun kw => (0 < Str.occurrences kw d1)%nat <-> (0 < Str.occurrences kw d2)%nat)
    (keywords_high ++ keywords_medium) ->
  calculate_priority d1 = calculate_priority d2.
Proof.
  intros H.
  assert (Hp : Forall (fun kw => present d1 kw = present d2 kw)
                 (keywords_high ++ keywords_medium)).
  { eapply Forall_impl; [exact H|]. simpl. intros kw Hkw.
    rewrite !occurrences_present in Hkw.
    destruct (present d1 kw), (present d2 kw); try done.
    - symmetry. by apply Hkw.
    - by apply Hkw. }
  apply Forall_app in Hp as [Hh Hm].
  rewrite !calculate_priority_formula. unfold high_count, medium_count.
  by rewrite (keyword_count_ext _ _ _ Hh), (keyword_count_ext _ _ _ Hm).
Qed.

Lemma calculate_priority_presence_only_witness :
  Str.occurrences "liver" "liver" = 1%nat
  /\ Str.occurrences "liver" "Liver, liver and LIVER" = 3%nat
  /\ Forall (fun kw => (0 < Str.occurrences kw "liver")%nat
                       <-> (0 < Str.occurrences kw "Liver, liver and LIVER")%nat)
       (keywords_high ++ keywords_medium)
  /\ calculate_priority "liver" = calculate_priority "Liver, liver and LIVER".
Proof.
  assert (H : Forall (fun kw => (0 < Str.occurrences kw "liver")%nat
                                <-> (0 < Str.occurrences kw "Liver, liver and LIVER")%nat)
                (keywords_high ++ keywords_medium)).
  { unfold keywords_high, keywords_medium. simpl app.
    repeat (apply List.Forall_cons; [vm_compute; split; intros; lia|]).
    apply List.Forall_nil. }
  split; [reflexivity|]. split; [reflexivity|].
  split; [exact H | exact (calculate_priority_presence_only _ _ H)].
Defined.

(** ** The store *)

Lemma email_taken_true e st :
  email_taken e st = true <-> exists s, In s (sponsors st) /\ s_email s = Some e.
Proof.
  unfold email_taken. rewrite existsb_exists.
  split; intros (s & Hin & H); exists s; split; try done.
  - by apply bool_decide_eq_true in H.
  - by apply bool_decide_eq_true.
Qed.

Lemma email_taken_count e st :
  email_taken e st = false -> email_count e st = 0%nat.
Proof.
  unfold email_taken, email_count. induction (sponsors st) as [|s l IH]; simpl; [done|].
  intros H. apply orb_false_iff in H as [-> H]. auto.
Qed.

Lemma filter_snoc {A} (f : A -> bool) l x :
  List.filter f (l ++ [x]) = List.filter f l ++ (if f x then [x] else []).
Proof. rewrite List.filter_app. reflexivity. Qed.

Lemma empty_store_ok : store_ok empty_store.
Proof. split; simpl; [intros; unfold email_count; simpl; lia | constructor | constructor]. Qed.

Lemma init_db_ok file :
  (forall st, file = Some st -> store_ok st) -> store_ok (init_db file).
Proof. destruct file as [st|]; simpl; [auto | intros _; apply empty_store_ok]. Qed.

(** Every insertion attempt, accepted or refused, keeps what the schema
    guarantees. *)
Lemma insert_sponsor_ok v st : store_ok st -> store_ok (snd (insert_sponsor v st)).
Proof.
  intros [He Hs Ho]. unfold insert_sponsor.
  destruct (match v_email v with Some e => email_taken e st | None => false end) eqn:Hc;
    simpl; [by split|].
  split; simpl.
  - intros e. unfold email_count; simpl. rewrite filter_snoc, length_app; simpl.
    case_bool_decide as Heq; simpl; [|specialize (He e); unfold email_count in He; lia].
    rewrite Heq in Hc. apply email_taken_count in Hc. unfold email_count in Hc. lia.
  - apply Forall_app. split; [|repeat constructor; simpl; lia].
    eapply Forall_impl; [exact Hs|]. simpl. intros; lia.
  - exact Ho.
Qed.

Lemma insert_outreach_ok sid d stt m st :
  store_ok st -> store_ok (insert_outreach sid d stt m st).
Proof.
  intros [He Hs Ho]. split; simpl; [exact He | exact Hs |].
  apply Forall_app. split; [|repeat constructor; simpl; lia].
  eapply Forall_impl; [exact Ho|]. simpl. intros; lia.
Qed.

(** A [NULL] email is outside the index: such a row is always accepted. *)
Lemma insert_sponsor_null_email v st :
  v_email v = None -> fst (insert_sponsor v st) = Inserted (sponsors_seq st + 1).
Proof. intros E. unfold insert_sponsor. by rewrite E. Qed.

(** C5: once an email value is in the sponsors table, inserting another
    sponsor with that email is refused with an integrity error, the
    store stays as it was, and no email value is held by more than one
    sponsor. *)
Theorem insert_sponsor_duplicate_email (st : store) (v : sponsor_values) (e : string) (s : sponsor) :
  store_ok st ->
  In s (sponsors st) -> s_email s = Some e ->
  v_email v = Some e ->
  insert_sponsor v st = (IntegrityError "UNIQUE constraint failed: sponsors.email", st)
  /\ forall e', (email_count e' (snd (insert_sponsor v st)) <= 1)%nat.
Proof.
  intros Hok Hin Hs Hv.
  assert (Ht : email_taken e st = true) by (apply email_taken_true; eauto).
  split.
  - unfold insert_sponsor. by rewrite Hv, Ht.
  - apply (ok_emails _ (insert_sponsor_ok v st Hok)).
Qed.

Lemma insert_sponsor_duplicate_email_witness :
  let v := SponsorValues (Some "Liver Trust") (Some "help@liver.example") None None None None in
  let st := snd (insert_sponsor v empty_store) in
  insert_sponsor v st = (IntegrityError "UNIQUE constraint failed: sponsors.email", st)
  /\ forall e', (email_count e' (snd (insert_sponsor v st)) <= 1)%nat.
Proof.
  intros v st.
  apply (insert_sponsor_duplicate_email st v "help@liver.example"
           (Sponsor 1 (Some "Liver Trust") (Some "help@liver.example") None None (Some 0) None)).
  - apply insert_sponsor_ok, empty_store_ok.
  - simpl. left. reflexivity.
  - reflexivity.
  - reflexivity.
Defined.

(** ** The pending-send query *)

Lemma like_percent s : Sql.like "%" s = true.
Proof. induction s as [|c s IH]; [reflexivity | exact IH]. Qed.

Lemma lower_ascii_at d : Ascii.eqb (Str.lower_ascii "@") (Str.lower_ascii d) = Ascii.eqb "@" d.
Proof. destruct d as [[] [] [] [] [] [] [] []]; reflexivity. Qed.

Lemma like_at_cons d s :
  Sql.like "%@%" (String d s) = Ascii.eqb "@" d || Sql.like "%@%" s.
Proof.
  change (Sql.like "%@%" (String d s))
    with (Ascii.eqb (Str.lower_ascii "@") (Str.lower_ascii d) && Sql.like "%" s
          || Sql.like "%@%" s).
  by rewrite lower_ascii_at, like_percent, andb_true_r.
Qed.

(** [LIKE '%@%'] holds of the texts that have an [@] somewhere. *)
Lemma like_at e : Sql.like "%@%" e = Str.contains "@" e.
Proof.
  induction e as [|d s IH]; [reflexivity|].
  rewrite like_at_cons, IH. simpl. by rewrite andb_true_r.
Qed.

Lemma eq_true_decide x (b : option Z) :
  Sql.eq_true (Some x) b = bool_decide (b = Some x).
Proof.
  destruct b as [y|]; simpl; [|done].
  destruct (Z.eqb_spec x y) as [->|Hne].
  - by rewrite bool_decide_eq_true_2.
  - rewrite bool_decide_eq_false_2; [done | congruence].
Qed.

Lemma filter_nil_forallb {A} (f : A -> bool) l :
  List.filter f l = [] <-> forallb (fun x => negb (f x)) l = true.
Proof.
  induction l as [|x l IH]; simpl; [done|].
  destruct (f x); simpl; [split; discriminate | exact IH].
Qed.

Lemma filter_where_events s (os : list outreach_event) :
  List.filter where_clause (map (fun o => (s, Some o)) os) = [].
Proof. induction os as [|o os IH]; simpl; [done | exact IH]. Qed.

(** The rows one sponsor contributes once the [WHERE] clause is applied. *)
Lemma where_join_rows st s :
  map (fun r => select_columns (fst r)) (List.filter where_clause (join_rows st s))
  = if qualifies st s then [select_columns s] else [].
Proof.
  unfold join_rows, qualifies.
  rewrite (List.filter_ext _ (fun o => bool_decide (o_sponsor_id o = Some (s_id s))))
    by (intros o; apply eq_true_decide).
  destruct (List.filter _ (outreach st)) as [|o os] eqn:Hos.
  - apply filter_nil_forallb in Hos. rewrite Hos. simpl.
    destruct (s_email s) as [e|]; simpl; [|done].
    rewrite like_at. by destruct (Str.contains "@" e).
  - assert (Hn : forallb (fun o => negb (bool_decide (o_sponsor_id o = Some (s_id s))))
                   (outreach st) = false).
    { apply not_true_is_false. intros H. apply filter_nil_forallb in H. congruence. }
    rewrite Hn. by rewrite filter_where_events.
Qed.

(** Before sorting, the query keeps the qualifying sponsors, each once
    and in table order. *)
Lemma where_left_join st :
  map (fun r => select_columns (fst r)) (List.filter where_clause (left_join st))
  = map select_columns (List.filter (qualifies st) (sponsors st)).
Proof.
  unfold left_join.
  induction (sponsors st) as [|s l IH]; [done|].
  cbn [flat_map List.filter].
  rewrite List.filter_app, List.map_app, IH, where_join_rows.
  by destruct (qualifies st s).
Qed.

Lemma qualifies_spec st s : qualifies st s = true <-> unsent st s /\ plausible_email s.
Proof.
  unfold qualifies, unsent, plausible_email.
  rewrite andb_true_iff, forallb_forall, List.Forall_forall.
  assert (Hl : (forall o, In o (outreach st) ->
                  negb (bool_decide (o_sponsor_id o = Some (s_id s))) = true)
               <-> (forall o, In o (outreach st) -> o_sponsor_id o <> Some (s_id s))).
  { split; intros H o Ho; specialize (H o Ho).
    - by apply negb_true_iff, bool_decide_eq_false in H.
    - by apply negb_true_iff, bool_decide_eq_false. }
  rewrite Hl. clear Hl.
  assert (Hr : match s_email s with Some e => Str.contains "@" e | None => false end = true
               <-> exists e, s_email s = Some e /\ exists pre post, e = pre +:+ "@" +:+ post).
  { destruct (s_email s) as [e|].
    - rewrite contains_true. split.
      + intros H. by exists e.
      + intros (e' & [= <-] & H). exact H.
    - split; [done | intros (e' & [=] & _)]. }
  rewrite Hr. reflexivity.
Qed.

#[local] Instance priority_desc_total : Total priority_desc.
Proof.
  intros r1 r2. unfold priority_desc.
  destruct (p_priority r1) as [x|], (p_priority r2) as [y|]; simpl; auto.
  destruct (Z.leb_spec y x), (Z.leb_spec x y); auto; lia.
Qed.

#[local] Instance priority_desc_trans : Transitive priority_desc.
Proof.
  intros r1 r2 r3. unfold priority_desc.
  destruct (p_priority r1) as [x|], (p_priority r2) as [y|], (p_priority r3) as [z|];
    simpl; try done.
  rewrite !Z.leb_le. lia.
Qed.


(** ** The mail tool *)

Ltac run_session :=
  unfold send_email_body, Exc.try_except, first_fault, smtp_steps, smtp;
  cbn;
  repeat match goal with
         | |- context [smtp_fault ?E ?n ?step] =>
             destruct (smtp_fault E n step); cbn
         end.

Lemma send_email_body_status E a w :
  fst (send_email_body E a w)
  = match first_fault E (length (attempts w)) with
    | Some e => failed_status (to_email a) e
    | None => sent_status (to_email a)
    end.
Proof. run_session; reflexivity. Qed.

Lemma send_email_body_clock E a w :
  clock (snd (send_email_body E a w)) = (clock w + smtp_seconds E (length (attempts w)))%Q.
Proof. run_session; reflexivity. Qed.

Lemma send_email_body_attempts E a w :
  attempts (snd (send_email_body E a w)) = attempts w ++ [(clock w, a)].
Proof. run_session; reflexivity. Qed.

Lemma send_email_body_frame E a w :
  let w' := snd (send_email_body E a w) in
  last_called w' = last_called w /\ naps w' = naps w /\ db w' = db w.
Proof. run_session; auto. Qed.

Lemma rate_limit_unfold {A B} E seconds (func : A -> world -> B * world) args w :
  rate_limit E seconds func args w
  = (fst (func args (after_wait E seconds w)),
     set_last_called (clock (snd (func args (after_wait E seconds w))))
       (snd (func args (after_wait E seconds w)))).
Proof.
  unfold rate_limit, after_wait.
  destruct (Qlt_le_dec _ _); by destruct (func args _).
Qed.

Lemma after_wait_frame E seconds w :
  attempts (after_wait E seconds w) = attempts w
  /\ db (after_wait E seconds w) = db w
  /\ last_called (after_wait E seconds w) = last_called w.
Proof. unfold after_wait. by destruct (Qlt_le_dec _ _). Qed.

(** When the wrapped function starts, the interval has elapsed since the
    last call returned. *)
Lemma after_wait_clock E seconds w :
  env_ok E ->
  (clock w <= clock (after_wait E seconds w))%Q
  /\ (last_called w + seconds <= clock (after_wait E seconds w))%Q.
Proof.
  intros [_ Ho]. unfold after_wait.
  destruct (Qlt_le_dec _ _) as [Hlt|Hle]; simpl.
  - specialize (Ho (length (naps w))). split; lra.
  - split; lra.
Qed.

Lemma send_email_status E a w :
  fst (send_email E a w)
  = match first_fault E (length (attempts w)) with
    | Some e => failed_status (to_email a) e
    | None => sent_status (to_email a)
    end.
Proof.
  unfold send_email. rewrite rate_limit_unfold. simpl.
  rewrite send_email_body_status.
  by destruct (after_wait_frame E 5 w) as (-> & _).
Qed.

Lemma send_email_attempts E a w :
  attempts (snd (send_email E a w))
  = attempts w ++ [(clock (after_wait E 5 w), a)].
Proof.
  unfold send_email. rewrite rate_limit_unfold. simpl.
  rewrite send_email_body_attempts.
  by destruct (after_wait_frame E 5 w) as (-> & _).
Qed.

Lemma send_email_db E a w : db (snd (send_email E a w)) = db w.
Proof.
  unfold send_email. rewrite rate_limit_unfold. simpl.
  destruct (send_email_body_frame E a (after_wait E 5 w)) as (_ & _ & ->).
  by destruct (after_wait_frame E 5 w) as (_ & -> & _).
Qed.

Lemma send_email_last_called E a w :
  last_called (snd (send_email E a w)) = clock (snd (send_email E a w))
  /\ clock (snd (send_email E a w))
     = (clock (after_wait E 5 w) + smtp_seconds E (length (attempts w)))%Q.
Proof.
  unfold send_email. rewrite rate_limit_unfold. simpl.
  rewrite send_email_body_clock.
  by destruct (after_wait_frame E 5 w) as (-> & _).
Qed.

Lemma string_app_nil_r (s : string) : s +:+ "" = s.
Proof. induction s as [|c s IH]; [done|]. by rewrite string_app_cons, IH. Qed.

Lemma status_contains_recipient to e :
  Str.contains to (sent_status to) = true
  /\ Str.contains to (failed_status to e) = true.
Proof.
  split; apply contains_true.
  - exists "✅ Sent to ", "". unfold sent_status. by rewrite string_app_nil_r.
  - by exists "Failed to ", (": " +:+ exn_str e).
Qed.

(** C3: a call of the mail tool returns a string in every case: when a
    step of the message construction or of the SMTP session raises, the
    exception is caught and the failure string is returned, otherwise
    the success string; either string contains the recipient address. *)
Theorem send_email_returns_status (E : Env) (a : send_args) (w : world) :
  exists status w',
    send_email E a w = (status, w')
    /\ status = match first_fault E (length (attempts w)) with
                | Some e => failed_status (to_email a) e
                | None => sent_status (to_email a)
                end
    /\ Str.contains (to_email a) status = true.
Proof.
  exists (fst (send_email E a w)), (snd (send_email E a w)).
  split; [by destruct (send_email E a w)|].
  split; [apply send_email_status|].
  rewrite send_email_status.
  destruct (first_fault E _) as [e|];
    [apply (status_contains_recipient _ e) | apply (status_contains_recipient _ (Exn "" ""))].
Qed.


Lemma env_ok_sample : env_ok Sample.env.
Proof. split; intros n; vm_compute; discriminate. Qed.


(** ** The send tab *)

Lemma send_row_unfold E f p results w row :
  let status := fst (send_email E (mail_for f p row) w) in
  let w1 := snd (send_email E (mail_for f p row) w) in
  send_row E f p (results, w) row
  = (results ++ [result_line row status],
     set_db (insert_outreach (Some (p_id row)) (Some (strftime E (clock w1)))
               (Some status) (Some "HTML template") (db w1)) w1).
Proof. unfold send_row. by destruct (send_email E _ w). Qed.

Lemma status_of_send_email E f p row w :
  status_of_send row (fst (send_email E (mail_for f p row) w)).
Proof.
  rewrite send_email_status. unfold status_of_send. simpl to_email.
  destruct (first_fault E _) as [e|]; [right; by exists e | by left].
Qed.

(** The loop, from any accumulator: one send and one event per row, in
    the order of the rows. *)
Lemma send_loop_acc E f p rows : forall acc w,
  exists statuses evs,
    fst (fold_left (send_row E f p) rows (acc, w))
      = acc ++ zip_with result_line rows statuses
    /\ Forall2 status_of_send rows statuses
    /\ map snd (attempts (snd (fold_left (send_row E f p) rows (acc, w))))
       = map snd (attempts w) ++ map (mail_for f p) rows
    /\ outreach (db (snd (fold_left (send_row E f p) rows (acc, w))))
       = outreach (db w) ++ evs
    /\ map event_core evs
       = zip_with (fun row status => (Some (p_id row), Some status, Some "HTML template"))
           rows statuses
    /\ sponsors (db (snd (fold_left (send_row E f p) rows (acc, w)))) = sponsors (db w).
Proof.
  induction rows as [|row rows IH]; intros acc w.
  - exists [], []. simpl. rewrite !app_nil_r. repeat split. constructor.
  - cbn [fold_left]. rewrite send_row_unfold.
    set (status := fst (send_email E (mail_for f p row) w)).
    set (w1 := snd (send_email E (mail_for f p row) w)).
    set (ev := Outreach (outreach_seq (db w1) + 1) (Some (p_id row))
                 (Some (strftime E (clock w1))) (Some status) (Some "HTML template")).
    set (w2 := set_db _ w1).
    destruct (IH (acc ++ [result_line row status]) w2)
      as (statuses & evs & Hres & Hst & Hatt & Hout & Hcore & Hsp).
    exists (status :: statuses), (ev :: evs).
    assert (Hdb : db w1 = db w) by apply send_email_db.
    repeat split.
    + rewrite Hres. cbn [zip_with]. by rewrite <- app_assoc.
    + constructor; [apply status_of_send_email | exact Hst].
    + rewrite Hatt. change (attempts w2) with (attempts w1).
      unfold w1. rewrite send_email_attempts, map_app. cbn [map snd].
      by rewrite <- app_assoc.
    + rewrite Hout. change (outreach (db w2)) with (outreach (db w1) ++ [ev]).
      by rewrite Hdb, <- app_assoc.
    + cbn [map zip_with]. by rewrite Hcore.
    + rewrite Hsp. change (sponsors (db w2)) with (sponsors (db w1)). by rewrite Hdb.
Qed.

Lemma on_send_click_credentials E ss rows w f p :
  ss !! "from_email" = Some f -> f <> "" ->
  ss !! "password" = Some p -> p <> "" ->
  on_send_click E ss rows w
  = (Success "All emails processed!" :: map Write (fst (send_loop E f p rows w)),
     snd (send_loop E f p rows w)).
Proof.
  intros Hf Hfn Hp Hpn. unfold on_send_click. rewrite Hf, Hp. simpl.
  rewrite !bool_decide_eq_false_2 by done. simpl.
  by destruct (send_loop E f p rows w).
Qed.



(** C8: when the sender email or the password is missing or empty in the
    session state, the send action only reports the error: the world is
    as before, so no send was attempted, no message was handed over and
    no outreach event was written. *)
Theorem on_send_click_without_credentials (E : Env) (ss : gmap string string)
    (rows : list pending_row) (w : world) :
  default "" (ss !! "from_email") = "" \/ default "" (ss !! "password") = "" ->
  on_send_click E ss rows w = ([Error "Set email credentials in sidebar first"], w)
  /\ attempts (snd (on_send_click E ss rows w)) = attempts w
  /\ outbox (snd (on_send_click E ss rows w)) = outbox w
  /\ outreach (db (snd (on_send_click E ss rows w))) = outreach (db w).
Proof.
  intros H.
  assert (Hc : on_send_click E ss rows w
               = ([Error "Set email credentials in sidebar first"], w)).
  { unfold on_send_click. destruct H as [-> | ->]; simpl; [done|].
    by rewrite orb_true_r. }
  rewrite Hc. done.
Qed.

Lemma on_send_click_without_credentials_witness :
  let ss : gmap string string := <["from_email" := "genesis@gmail.example"]> ∅ in
  let rows := pending (db Sample.start) in
  (default "" (ss !! "from_email") = "" \/ default "" (ss !! "password") = "")
  /\ on_send_click Sample.env ss rows Sample.start
     = ([Error "Set email credentials in sidebar first"], Sample.start).
Proof.
  intros ss rows.
  assert (H : default "" (ss !! "from_email") = "" \/ default "" (ss !! "password") = "")
    by (right; vm_compute; reflexivity).
  split; [exact H|].
  exact (proj1 (on_send_click_without_credentials Sample.env ss rows Sample.start H)).
Defined.

(** ** More on priority scoring *)

Lemma contains_app_r needle a b :
  Str.contains needle b = true -> Str.contains needle (a +:+ b) = true.
Proof.
  rewrite !contains_true. intros (pre & post & ->).
  exists (a +:+ pre), post. by rewrite string_app_assoc.
Qed.

Lemma keyword_count_zero kws d :
  keyword_count kws d = 0 <-> Forall (fun kw => ~ Str.occurs_ci kw d) kws.
Proof.
  unfold keyword_count. induction kws as [|kw kws IH]; simpl.
  - split; [constructor | done].
  - destruct (Str.contains_ci kw d) eqn:Hc; simpl length.
    + split; [lia|]. intros H. inversion H as [|? ? Hn _]; subst.
      exfalso. apply Hn. by apply contains_ci_occurs.
    + rewrite IH. split.
      * intros H. constructor; [|done]. intros Ho.
        apply contains_ci_occurs in Ho. congruence.
      * intros H. by inversion H.
Qed.

(** X1: the score is 0 exactly for the descriptions in which none of the
    fourteen keywords occurs, case ignored. *)
Theorem calculate_priority_zero (d : string) :
  calculate_priority d = 0
  <-> Forall (fun kw => ~ Str.occurs_ci kw d) (keywords_high ++ keywords_medium).
Proof.
  rewrite calculate_priority_formula, Forall_app, <- !keyword_count_zero.
  pose proof (keyword_count_nonneg keywords_high d).
  pose proof (keyword_count_nonneg keywords_medium d).
  unfold high_count, medium_count. lia.
Qed.

(** X2: a description made of two parts scores at least as much as
    either part alone. *)
Theorem calculate_priority_app_max (d1 d2 : string) :
  Z.max (calculate_priority d1) (calculate_priority d2) <= calculate_priority (d1 +:+ d2).
Proof.
  apply Z.max_lub; unfold calculate_priority; rewrite lower_app;
    apply Z.min_le_compat_r.
  - apply score_loop_mono; [lia| |intros kw; apply contains_app_l].
    apply score_loop_mono; [lia|lia|intros kw; apply contains_app_l].
  - apply score_loop_mono; [lia| |intros kw; apply contains_app_r].
    apply score_loop_mono; [lia|lia|intros kw; apply contains_app_r].
Qed.

(** X3: every score is a multiple of 4. *)
Theorem calculate_priority_multiple_of_4 (d : string) : (4 | calculate_priority d).
Proof.
  rewrite calculate_priority_formula.
  destruct (Z.min_spec (20 * high_count d + 8 * medium_count d) 100) as [[_ ->]|[_ ->]].
  - exists (5 * high_count d + 2 * medium_count d). lia.
  - by exists 25.
Qed.

(** ** The search tool *)

Lemma format_hit_complete r :
  Search.first_missing r = None -> exists block, Search.format_hit r = inr block /\ Search.block_of r block.
Proof.
  unfold Search.first_missing, Search.format_hit, Search.getitem, Search.block_of. simpl.
  destruct (r !! "title") as [t|]; simpl; [|done].
  destruct (r !! "href") as [h|]; simpl; [|done].
  destruct (r !! "body") as [b|]; simpl; [|done].
  intros _. eexists. split; [reflexivity|]. by exists t, h, b.
Qed.

Lemma format_hit_missing r key :
  Search.first_missing r = Some key ->
  Search.format_hit r = inl (Exn "KeyError" ("'" +:+ key +:+ "'")).
Proof.
  unfold Search.first_missing, Search.format_hit, Search.getitem. simpl.
  destruct (r !! "title") as [t|]; simpl; [|by intros [= <-]].
  destruct (r !! "href") as [h|]; simpl; [|by intros [= <-]].
  destruct (r !! "body") as [b|]; simpl; [done | by intros [= <-]].
Qed.

Lemma format_hit_inr r block :
  Search.format_hit r = inr block -> Search.first_missing r = None /\ Search.block_of r block.
Proof.
  destruct (Search.first_missing r) as [key|] eqn:Hm.
  - rewrite (format_hit_missing _ _ Hm). discriminate.
  - destruct (format_hit_complete _ Hm) as (b & -> & Hb). by intros [= <-].
Qed.

Lemma format_hits_complete results :
  Forall (fun r => Search.first_missing r = None) results ->
  exists blocks, Search.format_hits results = inr blocks /\ Forall2 Search.block_of results blocks.
Proof.
  induction 1 as [|r rs Hr _ (blocks & IH & Hb)]; simpl.
  - exists []. by split; [|constructor].
  - destruct (format_hit_complete _ Hr) as (b & -> & Hbr). rewrite IH.
    exists (b :: blocks). split; [done | by constructor].
Qed.

Lemma format_hits_inr results blocks :
  Search.format_hits results = inr blocks ->
  Forall (fun r => Search.first_missing r = None) results.
Proof.
  revert blocks. induction results as [|r rs IH]; intros blocks; simpl; [constructor|].
  destruct (Search.format_hit r) as [e|b] eqn:Hr; [discriminate|].
  destruct (Search.format_hits rs) as [e|bs]; [discriminate|].
  intros _. constructor; [by apply format_hit_inr in Hr as [? _] | by eapply IH].
Qed.

(** X4: when the provider returns at least one hit and each hit has its
    title, link and snippet, the answer is the blocks of the hits, in
    order, separated by a blank line. *)
Theorem web_search_formats_hits ddgs_text query max_results results :
  ddgs_text query max_results = inr results ->
  results <> [] ->
  Forall (fun r => Search.first_missing r = None) results ->
  exists blocks,
    Forall2 Search.block_of results blocks
    /\ Search.web_search ddgs_text query max_results
       = Search.join (Search.nl +:+ Search.nl) blocks.
Proof.
  intros Hd Hne Hall. destruct (format_hits_complete _ Hall) as (blocks & Hf & Hb).
  exists blocks. split; [exact Hb|].
  unfold Search.web_search. rewrite Hd. destruct results; [done|]. by rewrite Hf.
Qed.

Lemma web_search_formats_hits_witness :
  exists blocks,
    Forall2 Search.block_of [Search.sample_hit; Search.sample_hit] blocks
    /\ Search.web_search (fun _ _ => inr [Search.sample_hit; Search.sample_hit]) "hbv grants" 15
       = Search.join (Search.nl +:+ Search.nl) blocks.
Proof.
  apply (web_search_formats_hits (fun _ _ => inr [Search.sample_hit; Search.sample_hit])
           "hbv grants" 15 [Search.sample_hit; Search.sample_hit]).
  - reflexivity.
  - discriminate.
  - repeat constructor.
Defined.

(** X5: when a hit lacks one of the three fields, the whole search is
    answered by the error string that names the first field the first
    such hit lacks; the hits before and after it are not reported. *)
Theorem web_search_missing_field ddgs_text query max_results good bad rest key :
  ddgs_text query max_results = inr (good ++ bad :: rest) ->
  Forall (fun r => Search.first_missing r = None) good ->
  Search.first_missing bad = Some key ->
  Search.web_search ddgs_text query max_results = "Search error: '" +:+ key +:+ "'".
Proof.
  intros Hd Hgood Hbad. unfold Search.web_search. rewrite Hd.
  assert (Hf : Search.format_hits (good ++ bad :: rest)
               = inl (Exn "KeyError" ("'" +:+ key +:+ "'"))).
  { clear Hd. induction Hgood as [|r rs Hr _ IH]; simpl.
    - by rewrite (format_hit_missing _ _ Hbad).
    - destruct (format_hit_complete _ Hr) as (b & -> & _). by rewrite IH. }
  destruct (good ++ bad :: rest) eqn:Hl; [by destruct good|]. by rewrite Hf.
Qed.

Lemma web_search_missing_field_witness :
  Search.web_search
    (fun _ _ => inr ([Search.sample_hit] ++ Search.sample_hit_without_link :: [Search.sample_hit]))
    "hbv grants" 15
  = "Search error: 'href'".
Proof.
  apply (web_search_missing_field
           (fun _ _ => inr ([Search.sample_hit] ++ Search.sample_hit_without_link
                              :: [Search.sample_hit]))
           "hbv grants" 15 [Search.sample_hit] Search.sample_hit_without_link
           [Search.sample_hit] "href").
  - reflexivity.
  - repeat constructor.
  - vm_compute. reflexivity.
Defined.

Lemma join_cons_startswith sep block blocks :
  exists post, Search.join sep (block :: blocks) = block +:+ post.
Proof.
  destruct blocks as [|b bs]; simpl.
  - exists "". by rewrite string_app_nil_r.
  - by eexists.
Qed.

(** X6: the three outcomes can be told apart: the answer starts with
    [Title: ] exactly when the provider returned at least one hit and
    every hit had its three fields; no hit and an exception give the
    fixed sentence and the error string, which start otherwise. *)
Theorem web_search_outcomes ddgs_text query max_results :
  Str.startswith "Title: " (Search.web_search ddgs_text query max_results) = true
  <-> exists results,
        ddgs_text query max_results = inr results
        /\ results <> []
        /\ Forall (fun r => Search.first_missing r = None) results.
Proof.
  unfold Search.web_search.
  destruct (ddgs_text query max_results) as [e|results] eqn:Hd.
  - split; [discriminate | by intros (? & [=] & _)].
  - split.
    + destruct results as [|r rs]; [discriminate|].
      destruct (Search.format_hits (r :: rs)) as [e|blocks] eqn:Hf; [discriminate|].
      intros _. exists (r :: rs). split; [done|]. split; [done|].
      by eapply format_hits_inr.
    + intros (results' & [= <-] & Hne & Hall).
      destruct (format_hits_complete _ Hall) as (blocks & Hf & Hb).
      destruct results as [|r rs]; [done|]. rewrite Hf.
      inversion Hb as [|? b ? bs Hrb _]; subst.
      destruct Hrb as (t & h & s' & _ & _ & _ & ->).
      destruct (join_cons_startswith (Search.nl +:+ Search.nl)
                  ("Title: " +:+ t +:+ Search.nl +:+ "Link: " +:+ h +:+ Search.nl
                   +:+ "Snippet: " +:+ s') bs) as (post & ->).
      apply startswith_true. eexists. rewrite !string_app_assoc. reflexivity.
Qed.

(** ** More on the mail tool *)

Lemma after_wait_outbox_log E seconds w :
  outbox (after_wait E seconds w) = outbox w /\ log (after_wait E seconds w) = log w.
Proof. unfold after_wait. by destruct (Qlt_le_dec _ _). Qed.

Lemma send_email_body_outbox E a w :
  outbox (snd (send_email_body E a w))
  = if handed_over E (length (attempts w)) then outbox w ++ [a] else outbox w.
Proof. unfold handed_over. run_session; reflexivity. Qed.


Lemma first_fault_handed_over E n : first_fault E n = None -> handed_over E n = true.
Proof.
  unfold first_fault, handed_over, smtp_steps. cbn.
  repeat match goal with
         | |- context [smtp_fault ?E ?n ?step] => destruct (smtp_fault E n step); cbn
         end; done.
Qed.

Lemma sent_not_failed to e : sent_status to <> failed_status to e.
Proof. unfold sent_status, failed_status. discriminate. Qed.

(** X7: the message is handed to the server exactly when no step up to
    [sendmail] raises, and the status reports success exactly when no
    step raises at all; so a success status means the message was handed
    over, while a failure status after [sendmail] (a failing [quit])
    leaves a message that was handed over all the same. *)
Theorem send_email_outbox (E : Env) (a : send_args) (w : world) :
  let n := length (attempts w) in
  outbox (snd (send_email E a w))
    = (if handed_over E n then outbox w ++ [a] else outbox w)
  /\ (fst (send_email E a w) = sent_status (to_email a) <-> first_fault E n = None)
  /\ (fst (send_email E a w) = sent_status (to_email a) ->
      outbox (snd (send_email E a w)) = outbox w ++ [a]).
Proof.
  intros n.
  assert (Ho : outbox (snd (send_email E a w))
               = if handed_over E n then outbox w ++ [a] else outbox w).
  { unfold send_email. rewrite rate_limit_unfold. simpl.
    rewrite send_email_body_outbox.
    destruct (after_wait_frame E 5 w) as (-> & _).
    by destruct (after_wait_outbox_log E 5 w) as (-> & _). }
  assert (Hs : fst (send_email E a w) = sent_status (to_email a) <-> first_fault E n = None).
  { rewrite send_email_status. fold n. destruct (first_fault E n) as [e|].
    - split; [|done]. intros H. symmetry in H. by apply sent_not_failed in H.
    - done. }
  split; [exact Ho|]. split; [exact Hs|].
  intros H. apply Hs in H. by rewrite Ho, (first_fault_handed_over _ _ H).
Qed.


Lemma send_email_naps E a w :
  naps (snd (send_email E a w)) = naps (after_wait E 5 w).
Proof.
  unfold send_email. rewrite rate_limit_unfold. simpl.
  by destruct (send_email_body_frame E a (after_wait E 5 w)) as (_ & -> & _).
Qed.

(** X9: a call that comes when the interval has already elapsed since the
    last one returned does not sleep: its send begins at once. *)
Theorem send_email_no_wait (E : Env) (a : send_args) (w : world) :
  (5 <= clock w - last_called w)%Q ->
  naps (snd (send_email E a w)) = naps w
  /\ attempts (snd (send_email E a w)) = attempts w ++ [(clock w, a)].
Proof.
  intros H. rewrite send_email_naps, send_email_attempts. unfold after_wait.
  destruct (Qlt_le_dec _ _) as [Hlt|_]; [lra | done].
Qed.

Lemma send_email_no_wait_witness :
  (5 <= clock Sample.start - last_called Sample.start)%Q
  /\ naps (snd (send_email Sample.env Sample.first_mail Sample.start)) = []
  /\ attempts (snd (send_email Sample.env Sample.first_mail Sample.start))
     = [(1000%Q, Sample.first_mail)].
Proof.
  assert (H : (5 <= clock Sample.start - last_called Sample.start)%Q)
    by (vm_compute; discriminate).
  split; [exact H|].
  exact (send_email_no_wait Sample.env Sample.first_mail Sample.start H).
Defined.

Lemma StronglySorted_snoc {A} (R : A -> A -> Prop) l x :
  StronglySorted R l -> Forall (fun y => R y x) l -> StronglySorted R (l ++ [x]).
Proof.
  induction 1 as [|y l Hl IH Hy]; intros Hx; simpl.
  - repeat constructor.
  - inversion Hx; subst. constructor; [auto|].
    apply Forall_app. split; [done | by repeat constructor].
Qed.

Lemma send_email_throttle_inv E a w :
  env_ok E -> throttle_inv w -> throttle_inv (snd (send_email E a w)).
Proof.
  intros HE [Hs Hf]. unfold throttle_inv.
  destruct (send_email_last_called E a w) as [Hlc Hck].
  destruct (after_wait_clock E 5 w HE) as [_ Hw].
  pose proof (smtp_seconds_nonneg E HE (length (attempts w))) as Hd.
  rewrite send_email_attempts, map_app. simpl map. split.
  - apply StronglySorted_snoc; [done|].
    eapply Forall_impl; [exact Hf|]. simpl. intros t Ht. unfold gap. lra.
  - apply Forall_app. split.
    + eapply Forall_impl; [exact Hf|]. simpl. intros t Ht. rewrite Hlc, Hck. lra.
    + repeat constructor. rewrite Hlc, Hck. lra.
Qed.

Lemma send_row_throttle_inv E f p results w row :
  env_ok E -> throttle_inv w -> throttle_inv (snd (send_row E f p (results, w) row)).
Proof.
  intros HE Hw. rewrite send_row_unfold. simpl snd.
  apply (send_email_throttle_inv E (mail_for f p row) w HE) in Hw. exact Hw.
Qed.

Lemma send_loop_throttle_inv E f p rows : forall acc w,
  env_ok E -> throttle_inv w ->
  throttle_inv (snd (fold_left (send_row E f p) rows (acc, w))).
Proof.
  induction rows as [|row rows IH]; intros acc w HE Hw; [done|].
  cbn [fold_left].
  destruct (send_row E f p (acc, w) row) as [acc' w'] eqn:Hr.
  apply IH; [done|].
  change w' with (snd (acc', w')). rewrite <- Hr. by apply send_row_throttle_inv.
Qed.

Lemma initial_world_throttle_inv now file : throttle_inv (initial_world now file).
Proof. split; constructor. Qed.

(** X10: throughout the send loop the throttle holds between all sends,
    not only neighbours: any two sends began at least 5 seconds apart,
    those made before the loop included. *)
Theorem send_loop_throttled (E : Env) (f p : string) (rows : list pending_row) (w : world) :
  env_ok E -> throttle_inv w ->
  throttle_inv (snd (send_loop E f p rows w))
  /\ StronglySorted gap (map fst (attempts (snd (send_loop E f p rows w)))).
Proof.
  intros HE Hw.
  assert (H : throttle_inv (snd (send_loop E f p rows w)))
    by (by apply send_loop_throttle_inv).
  split; [exact H | exact (proj1 H)].
Qed.

Lemma send_loop_throttled_witness :
  env_ok Sample.env /\ throttle_inv Sample.start
  /\ StronglySorted gap
       (map fst (attempts (snd (send_loop Sample.env "genesis@gmail.example" "app-password"
                                  (pending (db Sample.start)) Sample.start)))).
Proof.
  split; [exact env_ok_sample|].
  split; [exact (initial_world_throttle_inv 1000 (Some Sample.file))|].
  exact (proj2 (send_loop_throttled Sample.env "genesis@gmail.example" "app-password"
                  (pending (db Sample.start)) Sample.start env_ok_sample
                  (initial_world_throttle_inv 1000 (Some Sample.file)))).
Defined.

Lemma send_email_last_called_step E a w :
  env_ok E ->
  let w' := snd (send_email E a w) in
  (last_called w + 5 <= last_called w')%Q
  /\ (clock w <= last_called w')%Q
  /\ last_called w' = clock w'.
Proof.
  intros HE w'.
  destruct (send_email_last_called E a w) as [Hlc Hck]. fold w' in Hlc, Hck.
  destruct (after_wait_clock E 5 w HE) as [Hc Hw].
  pose proof (smtp_seconds_nonneg E HE (length (attempts w))) as Hd.
  rewrite Hlc, Hck. repeat split; lra.
Qed.

Lemma send_loop_last_called E f p rows : forall acc w,
  env_ok E ->
  (last_called w + 5 * inject_Z (Z.of_nat (length rows))
   <= last_called (snd (fold_left (send_row E f p) rows (acc, w))))%Q.
Proof.
  induction rows as [|row rows IH]; intros acc w HE.
  - cbn [fold_left snd]. change (inject_Z (Z.of_nat (length []))) with 0%Q. lra.
  - cbn [fold_left]. rewrite send_row_unfold.
    set (w1 := snd (send_email E (mail_for f p row) w)).
    set (w2 := set_db _ w1).
    specialize (IH (acc ++ [result_line row (fst (send_email E (mail_for f p row) w))]) w2 HE).
    change (last_called w2) with (last_called w1) in IH.
    destruct (send_email_last_called_step E (mail_for f p row) w HE) as (Hstep & _).
    fold w1 in Hstep.
    change (length (row :: rows)) with (S (length rows)).
    rewrite Nat2Z.inj_succ. unfold Z.succ. rewrite inject_Z_plus.
    change (inject_Z 1) with 1%Q. lra.
Qed.

Lemma send_loop_clock_last_called E f p rows : forall acc w,
  rows <> [] ->
  last_called (snd (fold_left (send_row E f p) rows (acc, w)))
  = clock (snd (fold_left (send_row E f p) rows (acc, w))).
Proof.
  induction rows as [|row rows IH]; intros acc w Hne; [done|].
  cbn [fold_left]. rewrite send_row_unfold.
  destruct rows as [|row' rows'].
  - simpl. apply (send_email_last_called E (mail_for f p row) w).
  - apply IH. done.
Qed.

(** X11: the send loop over [n] rows, [n] at least 1, takes at least
    [5 * (n - 1)] seconds: the throttle makes a bulk send slow on
    purpose. *)
Theorem send_loop_duration (E : Env) (f p : string) (rows : list pending_row) (w : world) :
  env_ok E -> rows <> [] ->
  (clock w + 5 * (inject_Z (Z.of_nat (length rows)) - 1)
   <= clock (snd (send_loop E f p rows w)))%Q.
Proof.
  intros HE Hne. unfold send_loop.
  rewrite <- (send_loop_clock_last_called E f p rows [] w Hne).
  destruct rows as [|row rows]; [done|].
  cbn [fold_left]. rewrite send_row_unfold.
  set (w1 := snd (send_email E (mail_for f p row) w)).
  set (w2 := set_db _ w1).
  pose proof (send_loop_last_called E f p rows
                ([] ++ [result_line row (fst (send_email E (mail_for f p row) w))]) w2 HE) as Hl.
  change (last_called w2) with (last_called w1) in Hl.
  destruct (send_email_last_called_step E (mail_for f p row) w HE) as (_ & Hc & _).
  fold w1 in Hc.
  change (length (row :: rows)) with (S (length rows)).
  rewrite Nat2Z.inj_succ. unfold Z.succ. rewrite inject_Z_plus.
  change (inject_Z 1) with 1%Q. lra.
Qed.

Lemma send_loop_duration_witness :
  env_ok Sample.env /\ pending (db Sample.start) <> []
  /\ (clock Sample.start + 5 * (inject_Z (Z.of_nat (length (pending (db Sample.start)))) - 1)
      <= clock (snd (send_loop Sample.env "genesis@gmail.example" "app-password"
                       (pending (db Sample.start)) Sample.start)))%Q.
Proof.
  assert (Hne : pending (db Sample.start) <> []) by (vm_compute; discriminate).
  split; [exact env_ok_sample|]. split; [exact Hne|].
  exact (send_loop_duration Sample.env "genesis@gmail.example" "app-password"
           (pending (db Sample.start)) Sample.start env_ok_sample Hne).
Defined.

(** ** More on the store and the query *)

Lemma pending_perm st :
  pending st ≡ₚ map select_columns (List.filter (qualifies st) (sponsors st)).
Proof. unfold pending. rewrite merge_sort_Permutation. by rewrite where_left_join. Qed.

Lemma List_filter_Permutation {A} (f : A -> bool) l l' :
  l ≡ₚ l' -> List.filter f l ≡ₚ List.filter f l'.
Proof.
  induction 1 as [|x l l' _ IH|x y l|l l' l'' _ IH1 _ IH2]; simpl.
  - done.
  - destruct (f x); [by constructor | done].
  - destruct (f x), (f y); try done. apply perm_swap.
  - by etrans.
Qed.

Lemma filter_map_select (g : Z -> bool) l :
  List.filter (fun r => g (p_id r)) (map select_columns l)
  = map select_columns (List.filter (fun s => g (s_id s)) l).
Proof.
  induction l as [|s l IH]; simpl; [done|].
  destruct (g (s_id s)); simpl; by rewrite IH.
Qed.

Lemma filter_filter_andb {A} (f g : A -> bool) l :
  List.filter g (List.filter f l) = List.filter (fun x => f x && g x) l.
Proof.
  induction l as [|x l IH]; simpl; [done|].
  destruct (f x); simpl; [destruct (g x); by rewrite IH | exact IH].
Qed.

Lemma qualifies_insert_outreach st sid d stt m s :
  qualifies (insert_outreach sid d stt m st) s
  = qualifies st s && negb (bool_decide (sid = Some (s_id s))).
Proof.
  unfold qualifies, insert_outreach. simpl.
  rewrite forallb_app. simpl. rewrite andb_true_r.
  destruct (forallb _ (outreach st)), (bool_decide _),
    (match s_email s with Some e => Str.contains "@" e | None => false end); done.
Qed.

(** X12: writing an outreach event for a sponsor takes exactly the rows
    of that sponsor out of the pending list; the rows of all other
    sponsors stay, and an event without a sponsor takes nothing out. *)
Theorem pending_insert_outreach (st : store) (sid : option Z)
    (sent_date status message : option string) :
  pending (insert_outreach sid sent_date status message st)
  ≡ₚ List.filter (fun r => negb (bool_decide (sid = Some (p_id r)))) (pending st).
Proof.
  etrans; [apply pending_perm|].
  etrans; [|symmetry; apply List_filter_Permutation, pending_perm].
  pose proof (filter_map_select (fun i => negb (bool_decide (sid = Some i)))
                (List.filter (qualifies st) (sponsors st))) as Hm.
  simpl in Hm. rewrite Hm, filter_filter_andb.
  change (sponsors (insert_outreach sid sent_date status message st)) with (sponsors st).
  erewrite List.filter_ext; [reflexivity|].
  intros s. apply qualifies_insert_outreach.
Qed.

(** X13: a new outreach event gets an id above every id in the table,
    is put last, and leaves the sponsors as they are; what the schema
    guarantees is kept. *)
Theorem insert_outreach_fresh (st : store) (sid : option Z)
    (sent_date status message : option string) :
  store_ok st ->
  let st' := insert_outreach sid sent_date status message st in
  store_ok st'
  /\ sponsors st' = sponsors st
  /\ (exists ev, outreach st' = outreach st ++ [ev]
                 /\ event_core ev = (sid, status, message)
                 /\ Forall (fun o => o_id o < o_id ev) (outreach st)).
Proof.
  intros Hok st'. split; [by apply insert_outreach_ok|]. split; [done|].
  eexists. split; [reflexivity|]. split; [reflexivity|]. simpl.
  eapply Forall_impl; [exact (ok_outreach_ids _ Hok)|]. simpl. intros; lia.
Qed.

Lemma insert_outreach_fresh_witness :
  let st' := insert_outreach (Some 1) None (Some "sent") None Sample.file in
  store_ok Sample.file /\ store_ok st' /\ sponsors st' = sponsors Sample.file.
Proof.
  intros st'.
  assert (Hok : store_ok Sample.file)
    by (apply insert_sponsor_ok, insert_sponsor_ok, empty_store_ok).
  destruct (insert_outreach_fresh Sample.file (Some 1) None (Some "sent") None Hok)
    as (H1 & H2 & _).
  split; [exact Hok|]. split; [exact H1 | exact H2].
Defined.

#[local] Instance sponsor_priority_desc_total : Total sponsor_priority_desc.
Proof.
  intros s1 s2. unfold sponsor_priority_desc.
  destruct (s_priority s1) as [x|], (s_priority s2) as [y|]; simpl; auto.
  destruct (Z.leb_spec y x), (Z.leb_spec x y); auto; lia.
Qed.

#[local] Instance sponsor_priority_desc_trans : Transitive sponsor_priority_desc.
Proof.
  intros s1 s2 s3. unfold sponsor_priority_desc.
  destruct (s_priority s1) as [x|], (s_priority s2) as [y|], (s_priority s3) as [z|];
    simpl; try done.
  rewrite !Z.leb_le. lia.
Qed.

(** X14: the database tab shows the notice exactly when the sponsors
    table is empty; otherwise it shows every sponsor once, in descending
    order of priority. *)
Theorem tab2_spec (st : store) :
  (sponsors st = [] <-> tab2 st = NoSponsors "No sponsors in database yet. Run research first.")
  /\ (sponsors st <> [] ->
      exists df, tab2 st = SponsorTable df
                 /\ df ≡ₚ sponsors st
                 /\ StronglySorted sponsor_priority_desc df).
Proof.
  unfold tab2.
  pose proof (merge_sort_Permutation sponsor_priority_desc (sponsors st)) as Hp.
  fold (sponsors_by_priority st) in Hp.
  destruct (sponsors_by_priority st) as [|s df] eqn:Hs.
  - apply Permutation_nil_l in Hp. split; [done|]. by intros.
  - split.
    + split; [|done]. intros Hn. rewrite Hn in Hp.
      by apply Permutation_nil_r in Hp.
    + intros _. exists (s :: df). split; [done|]. split; [done|].
      rewrite <- Hs. apply StronglySorted_merge_sort; apply _.
Qed.

Lemma tab2_spec_witness :
  sponsors Sample.file <> []
  /\ exists df, tab2 Sample.file = SponsorTable df /\ df ≡ₚ sponsors Sample.file.
Proof.
  assert (Hne : sponsors Sample.file <> []) by (vm_compute; discriminate).
  split; [exact Hne|].
  destruct (proj2 (tab2_spec Sample.file) Hne) as (df & Hd & Hp & _).
  exists df. split; [exact Hd | exact Hp].
Defined.

(** ** More on the send tab *)

Lemma zip_core_sponsor_ids rows statuses :
  Forall2 status_of_send rows statuses ->
  map (fun c : option Z * option string * option string => fst (fst c))
    (zip_with (fun row status => (Some (p_id row), Some status, Some "HTML template"))
       rows statuses)
  = map (fun r => Some (p_id r)) rows.
Proof. induction 1 as [|r st rs sts _ _ IH]; simpl; [done | by rewrite IH]. Qed.

Lemma filter_nil_all {A} (f : A -> bool) l :
  (forall x, In x l -> f x = false) -> List.filter f l = [].
Proof.
  induction l as [|x l IH]; intros H; simpl; [done|].
  rewrite (H x) by (by left). apply IH. intros y Hy. apply H. by right.
Qed.

Lemma in_pending st s : In s (sponsors st) -> qualifies st s = true ->
  In (select_columns s) (pending st).
Proof.
  intros Hs Hq. apply list_elem_of_In. rewrite pending_perm. apply list_elem_of_In.
  apply in_map, filter_In. done.
Qed.

Lemma in_pending_inv st r : In r (pending st) ->
  exists s, r = select_columns s /\ In s (sponsors st) /\ qualifies st s = true.
Proof.
  intros Hr. apply list_elem_of_In in Hr. rewrite pending_perm in Hr.
  apply list_elem_of_In, in_map_iff in Hr as (s & <- & Hs).
  apply filter_In in Hs. by exists s.
Qed.

(** Once every pending row has its event, nothing is pending. *)
Lemma pending_after_events st st' evs :
  sponsors st' = sponsors st ->
  outreach st' = outreach st ++ evs ->
  map o_sponsor_id evs = map (fun r => Some (p_id r)) (pending st) ->
  pending st' = [].
Proof.
  intros Hsp Hout Hids. apply Permutation_nil_r. rewrite pending_perm.
  rewrite filter_nil_all; [done|]. intros s Hs. rewrite Hsp in Hs.
  unfold qualifies. rewrite Hout, forallb_app.
  destruct (qualifies st s) eqn:Hq.
  - assert (Hin : In (Some (s_id s)) (map o_sponsor_id evs)).
    { rewrite Hids. apply (in_map (fun r => Some (p_id r)) _ _ (in_pending st s Hs Hq)). }
    apply in_map_iff in Hin as (ev & Hev & Hin).
    assert (Hf : forallb (fun o => negb (bool_decide (o_sponsor_id o = Some (s_id s)))) evs
                 = false).
    { apply not_true_is_false. intros Hall. rewrite forallb_forall in Hall.
      specialize (Hall ev Hin). rewrite bool_decide_eq_true_2 in Hall; done. }
    rewrite Hf, andb_false_r. done.
  - unfold qualifies in Hq.
    destruct (forallb _ (outreach st)); simpl in *; [|done].
    rewrite Hq. by rewrite andb_false_r.
Qed.

Lemma tab3_credentials E ss w f p :
  ss !! "from_email" = Some f -> f <> "" ->
  ss !! "password" = Some p -> p <> "" ->
  snd (tab3 E ss true true w) = snd (send_loop E f p (pending (db w)) w).
Proof.
  intros Hf Hfn Hp Hpn. unfold tab3.
  destruct (pending (db w)) as [|r rows] eqn:Hrows; [done|].
  simpl andb. cbv iota. by rewrite (on_send_click_credentials E ss _ w f p).
Qed.

(** X15: after an approved send with both credentials, nothing is
    pending any more, whether the sends succeeded or not; using the
    button again changes nothing. *)
Theorem tab3_leaves_nothing_pending (E : Env) (ss : gmap string string) (w : world)
    (f p : string) :
  ss !! "from_email" = Some f -> f <> "" ->
  ss !! "password" = Some p -> p <> "" ->
  let w' := snd (tab3 E ss true true w) in
  pending (db w') = [] /\ snd (tab3 E ss true true w') = w'.
Proof.
  intros Hf Hfn Hp Hpn w'.
  assert (Hnil : pending (db w') = []).
  { unfold w'. rewrite (tab3_credentials E ss w f p) by done.
    destruct (send_loop_acc E f p (pending (db w)) [] w)
      as (statuses & evs & _ & Hst & _ & Hout & Hcore & Hsp).
    fold (send_loop E f p (pending (db w)) w) in Hout, Hsp.
    apply (pending_after_events (db w) _ evs Hsp Hout).
    rewrite <- (zip_core_sponsor_ids _ _ Hst), <- Hcore, map_map. done. }
  split; [exact Hnil|]. unfold tab3. by rewrite Hnil.
Qed.

Lemma tab3_leaves_nothing_pending_witness :
  let w' := snd (tab3 Sample.env Sample.credentials true true Sample.start) in
  pending (db Sample.start) <> [] /\ pending (db w') = []
  /\ snd (tab3 Sample.env Sample.credentials true true w') = w'.
Proof.
  intros w'. split; [vm_compute; discriminate|].
  apply (tab3_leaves_nothing_pending Sample.env Sample.credentials Sample.start
           "genesis@gmail.example" "app-password").
  - vm_compute; reflexivity.
  - discriminate.
  - vm_compute; reflexivity.
  - discriminate.
Defined.

(** X16: the send tab changes the world only when the confirmation is
    ticked, the button is clicked, something is pending and both
    credentials are in the session state; in every other case no send
    is made and nothing is written. *)
Theorem tab3_changes_only_when_approved (E : Env) (ss : gmap string string)
    (send_all clicked : bool) (w : world) :
  snd (tab3 E ss send_all clicked w) <> w ->
  send_all = true /\ clicked = true /\ pending (db w) <> []
  /\ default "" (ss !! "from_email") <> "" /\ default "" (ss !! "password") <> "".
Proof.
  unfold tab3, on_send_click.
  destruct (pending (db w)) as [|r rows]; [done|].
  destruct send_all, clicked; simpl; try done.
  destruct (bool_decide_reflect (default "" (ss !! "from_email") = "")); simpl; [done|].
  destruct (bool_decide_reflect (default "" (ss !! "password") = "")); simpl; [done|].
  repeat split; done.
Qed.

Lemma tab3_changes_only_when_approved_witness :
  snd (tab3 Sample.env Sample.credentials true true Sample.start) <> Sample.start
  /\ pending (db Sample.start) <> []
  /\ default "" (Sample.credentials !! "password") <> "".
Proof.
  assert (H : snd (tab3 Sample.env Sample.credentials true true Sample.start) <> Sample.start).
  { intros H. apply (f_equal (fun w => length (attempts w))) in H.
    vm_compute in H. discriminate. }
  destruct (tab3_changes_only_when_approved Sample.env Sample.credentials true true
              Sample.start H) as (_ & _ & Hp & _ & Hpw).
  split; [exact H|]. split; [exact Hp | exact Hpw].
Defined.

(** X17: every message of an approved send goes to the address of a
    sponsor of the table that had no outreach event yet, and the address
    has an [@]; the sends made before stay as they were. *)
Theorem tab3_recipients (E : Env) (ss : gmap string string) (w : world) (f p : string) :
  ss !! "from_email" = Some f -> f <> "" ->
  ss !! "password" = Some p -> p <> "" ->
  exists new,
    map snd (attempts (snd (tab3 E ss true true w))) = map snd (attempts w) ++ new
    /\ Forall (pending_recipient (db w)) new
    /\ Forall (fun a => from_email a = f /\ username a = f /\ password a = p
                        /\ smtp_server a = "smtp.gmail.com" /\ smtp_port a = 587) new.
Proof.
  intros Hf Hfn Hp Hpn. rewrite (tab3_credentials E ss w f p) by done.
  destruct (send_loop_acc E f p (pending (db w)) [] w)
    as (statuses & evs & _ & _ & Hatt & _).
  fold (send_loop E f p (pending (db w)) w) in Hatt.
  exists (map (mail_for f p) (pending (db w))). split; [exact Hatt|].
  split; apply List.Forall_forall; intros a Ha;
    apply in_map_iff in Ha as (r & <- & Hr); [|done].
  apply in_pending_inv in Hr as (s & -> & Hs & Hq).
  apply qualifies_spec in Hq as [Hu (e & He & Hat)].
  exists s, e. repeat split; try done.
  - simpl. by rewrite He.
  - by apply contains_true.
Qed.

Lemma tab3_recipients_witness :
  exists new,
    map snd (attempts (snd (tab3 Sample.env Sample.credentials true true Sample.start)))
    = map snd (attempts Sample.start) ++ new
    /\ Forall (pending_recipient (db Sample.start)) new.
Proof.
  destruct (tab3_recipients Sample.env Sample.credentials Sample.start
              "genesis@gmail.example" "app-password"
              ltac:(vm_compute; reflexivity) ltac:(discriminate)
              ltac:(vm_compute; reflexivity) ltac:(discriminate))
    as (new & Ha & Hr & _).
  exists new. split; [exact Ha | exact Hr].
Defined.

(** ** The log tab, the sidebar and a whole run *)

Lemma rev_is_reverse {A} (l : list A) : rev l = reverse l.
Proof. unfold reverse. apply rev_alt. Qed.

(** X18: the log tab shows the last fifty lines of the log, or all of
    them when there are fewer, the newest first: the line at position
    [i] of the view is the line [i] places before the end of the file. *)
Theorem recent_logs_spec (lines : list string) :
  length (recent_logs lines) = Nat.min 50 (length lines)
  /\ forall i, (i < Nat.min 50 (length lines))%nat ->
       recent_logs lines !! i = lines !! (length lines - 1 - i)%nat.
Proof.
  unfold recent_logs. rewrite rev_is_reverse, length_reverse, length_drop.
  split; [lia|]. intros i Hi.
  rewrite reverse_lookup by (rewrite length_drop; lia).
  rewrite lookup_drop, length_drop. f_equal. lia.
Qed.

Lemma recent_logs_spec_witness :
  (0 < Nat.min 50 (length ["Database initialized | "; "EMAIL SENT | To: a@b.example"]))%nat
  /\ recent_logs ["Database initialized | "; "EMAIL SENT | To: a@b.example"] !! 0%nat
     = Some "EMAIL SENT | To: a@b.example".
Proof.
  assert (H : (0 < Nat.min 50
                     (length ["Database initialized | "; "EMAIL SENT | To: a@b.example"]))%nat)
    by (simpl; lia).
  split; [exact H|].
  exact (proj2 (recent_logs_spec
                  ["Database initialized | "; "EMAIL SENT | To: a@b.example"]) 0%nat H).
Defined.

Lemma sidebar_stores f p (ss : gmap string string) :
  f <> "" -> p <> "" ->
  fst (sidebar f p ss) !! "from_email" = Some f
  /\ fst (sidebar f p ss) !! "password" = Some p.
Proof.
  intros Hf Hp. unfold sidebar.
  rewrite !bool_decide_eq_false_2 by done. simpl. split.
  - rewrite lookup_insert_ne by done. apply lookup_insert_eq.
  - apply lookup_insert_eq.
Qed.

(** X19: once the sidebar has been given a non-empty email and a
    non-empty password, the send action goes through with exactly this
    pair, whatever the session state held before. *)
Theorem sidebar_then_send (E : Env) (f p : string) (ss : gmap string string)
    (rows : list pending_row) (w : world) :
  f <> "" -> p <> "" ->
  on_send_click E (fst (sidebar f p ss)) rows w
  = (Success "All emails processed!" :: map Write (fst (send_loop E f p rows w)),
     snd (send_loop E f p rows w)).
Proof.
  intros Hf Hp. destruct (sidebar_stores f p ss Hf Hp) as [H1 H2].
  by apply on_send_click_credentials.
Qed.

Lemma sidebar_then_send_witness :
  on_send_click Sample.env (fst (sidebar "genesis@gmail.example" "app-password" ∅)) []
    Sample.start
  = ([Success "All emails processed!"], Sample.start).
Proof.
  exact (sidebar_then_send Sample.env "genesis@gmail.example" "app-password" ∅ []
           Sample.start ltac:(discriminate) ltac:(discriminate)).
Defined.

(** X20: an empty input does not clear what is stored: when the email
    or the password field of the sidebar is empty, the session state
    stays as it is, so a send goes on with the pair stored before; with
    nothing stored before, the send action reports the missing
    credentials and does nothing. *)
Theorem sidebar_keeps_stored_credentials (E : Env) (f p f0 p0 : string)
    (ss : gmap string string) (rows : list pending_row) (w : world) :
  f = "" \/ p = "" ->
  f0 <> "" -> p0 <> "" ->
  fst (sidebar f p ss) = ss
  /\ on_send_click E (fst (sidebar f p (fst (sidebar f0 p0 ss)))) rows w
     = (Success "All emails processed!" :: map Write (fst (send_loop E f0 p0 rows w)),
        snd (send_loop E f0 p0 rows w))
  /\ on_send_click E (fst (sidebar f p ∅)) rows w
     = ([Error "Set email credentials in sidebar first"], w).
Proof.
  intros Hempty Hf0 Hp0.
  assert (Hid : forall ss' : gmap string string, fst (sidebar f p ss') = ss').
  { intros ss'. unfold sidebar. destruct Hempty as [-> | ->]; simpl; [done|].
    by rewrite andb_false_r. }
  split; [apply Hid|]. rewrite !Hid. split.
  - destruct (sidebar_stores f0 p0 ss Hf0 Hp0) as [H1 H2].
    by apply on_send_click_credentials.
  - reflexivity.
Qed.

Lemma sidebar_keeps_stored_credentials_witness :
  on_send_click Sample.env
    (fst (sidebar "genesis@gmail.example" ""
            (fst (sidebar "genesis@gmail.example" "app-password" ∅)))) [] Sample.start
  = ([Success "All emails processed!"], Sample.start).
Proof.
  exact (proj1 (proj2 (sidebar_keeps_stored_credentials Sample.env
                         "genesis@gmail.example" "" "genesis@gmail.example" "app-password"
                         ∅ [] Sample.start (or_intror eq_refl)
                         ltac:(discriminate) ltac:(discriminate)))).
Defined.



Lemma script_run_snd E wd ss w :
  snd (script_run E wd ss w)
  = log_action "App loaded successfully" ""
      (snd (tab3 E ss (send_all_box wd) (send_clicked wd)
              (log_action "Database initialized" ""
                 (set_db (init_db (Some (db (set_last_called 0 w)))) (set_last_called 0 w))))).
Proof.
  unfold script_run. destruct (tab3 _ _ _ _ _) as [out w1].
  by destruct (sidebar _ _ ss).
Qed.

Lemma send_loop_attempts_prefix E f p rows : forall acc w,
  exists rest, attempts (snd (fold_left (send_row E f p) rows (acc, w))) = attempts w ++ rest.
Proof.
  induction rows as [|row rows IH]; intros acc w.
  - exists []. simpl. by rewrite app_nil_r.
  - cbn [fold_left]. rewrite send_row_unfold.
    set (w2 := set_db _ _).
    destruct (IH (acc ++ [result_line row (fst (send_email E (mail_for f p row) w))]) w2)
      as (rest & ->).
    change (attempts w2) with (attempts (snd (send_email E (mail_for f p row) w))).
    rewrite send_email_attempts, <- app_assoc. by eexists.
Qed.

(** X22: the throttle does not reach across executions of the script:
    in an execution with an approved send, the first message goes out
    at once, at the clock reading the execution began with, however
    recently the last send of an earlier execution returned. *)
Theorem script_run_first_send_at_once (E : Env) (wd : widgets) (ss : gmap string string)
    (w : world) (f p : string) (row : pending_row) (rows : list pending_row) :
  send_all_box wd = true -> send_clicked wd = true ->
  ss !! "from_email" = Some f -> f <> "" ->
  ss !! "password" = Some p -> p <> "" ->
  pending (db w) = row :: rows ->
  (5 <= clock w)%Q ->
  exists rest,
    attempts (snd (script_run E wd ss w))
    = attempts w ++ (clock w, mail_for f p row) :: rest.
Proof.
  intros Hbox Hclick Hf Hfn Hp Hpn Hrows Hclock.
  rewrite script_run_snd, Hbox, Hclick.
  set (w0 := log_action "Database initialized" "" _).
  assert (Hdb : pending (db w0) = row :: rows) by exact Hrows.
  change (attempts (log_action ?a ?b ?x)) with (attempts x).
  rewrite (tab3_credentials E ss w0 f p Hf Hfn Hp Hpn), Hdb.
  unfold send_loop. cbn [fold_left]. rewrite send_row_unfold.
  set (w2 := set_db _ _).
  destruct (send_loop_attempts_prefix E f p rows
              ([] ++ [result_line row (fst (send_email E (mail_for f p row) w0))]) w2)
    as (rest & ->).
  change (attempts w2) with (attempts (snd (send_email E (mail_for f p row) w0))).
  assert (H5 : (5 <= clock w0 - last_called w0)%Q).
  { change (clock w0) with (clock w). change (last_called w0) with 0%Q. lra. }
  rewrite send_email_attempts. unfold after_wait.
  destruct (Qlt_le_dec _ _) as [Hlt|_]; [lra|].
  change (attempts w0) with (attempts w). change (clock w0) with (clock w).
  rewrite <- app_assoc. by exists rest.
Qed.

Lemma script_run_first_send_at_once_witness :
  let late := set_last_called 999 Sample.start in
  let wd := Widgets true true "genesis@gmail.example" "app-password" in
  (clock late - last_called late < 5)%Q
  /\ exists rest,
       attempts (snd (script_run Sample.env wd Sample.credentials late))
       = attempts late ++ (clock late, Sample.first_mail) :: rest.
Proof.
  intros late wd. split; [vm_compute; reflexivity|].
  apply (script_run_first_send_at_once Sample.env wd Sample.credentials late
           "genesis@gmail.example" "app-password"
           (PendingRow 2 None (Some "grants@hbv.example") (Some 60))
           [PendingRow 1 (Some "Liver Trust") (Some "help@liver.example") (Some 40)]).
  - reflexivity.
  - reflexivity.
  - vm_compute; reflexivity.
  - discriminate.
  - vm_compute; reflexivity.
  - discriminate.
  - vm_compute; reflexivity.
  - vm_compute; discriminate.
Defined.
